(** * PlaylistManager: the shared audio player ([app/player.py]) and the
    status message of the WebSocket endpoint ([app/websocket.py]).

    The player is a set of module-level variables mutated by the functions of
    [app/player.py].  Here the variables form one record, [Player], and every
    function is a computation in a small state-and-exception monad over it:
    a Python exception leaves the variables as they were when it was raised,
    which is what the endpoint's [except Exception: pass] relies on. *)

From Stdlib Require Import ZArith Lia.
From stdpp Require Import base decidable option list strings.

Local Open Scope Z_scope.

(** ** ORM rows ([app/models]) *)

Module Track.
Record t : Type := mk {
  id : Z;
  title : string;
  duration : Z;
  file_path : option string;
  album_id : option Z
}.
End Track.

Module Playlist.
Record t : Type := mk {
  id : Z;
  name : string;
  owner_id : Z;
  tracks : list Track.t
}.
End Playlist.

Module Album.
Record t : Type := mk {
  id : Z;
  title : string;
  artist_id : Z;
  tracks : list Track.t
}.
End Album.

#[global] Instance track_eq_dec : EqDecision Track.t.
Proof. solve_decision. Defined.

(** The database as the player sees it: three tables, rows in storage order.
    [db.get(Model, pk)] is the row with that primary key,
    [db.query(Playlist).filter_by(name=...).first()] the first row of that
    name. *)
Record Database : Type := {
  tracks_table : list Track.t;
  playlists_table : list Playlist.t;
  albums_table : list Album.t
}.

Definition db_get_track (db : Database) (pk : Z) : option Track.t :=
  List.find (fun r => Track.id r =? pk) (tracks_table db).

Definition db_get_playlist (db : Database) (pk : Z) : option Playlist.t :=
  List.find (fun r => Playlist.id r =? pk) (playlists_table db).

Definition db_first_playlist_named (db : Database) (name : string)
  : option Playlist.t :=
  List.find (fun r => bool_decide (Playlist.name r = name)) (playlists_table db).

Definition db_get_album (db : Database) (pk : Z) : option Album.t :=
  List.find (fun r => Album.id r =? pk) (albums_table db).

(** ** The module-level variables of [app/player.py] *)

Record Player : Type := {
  queue : list Track.t;            (* deque, head first *)
  current : option Track.t;
  elapsed : Z;
  is_paused : bool;
  loop_track : bool;
  loop_playlist : bool;
  playlist_mode : bool;
  playlist_tracks : list Track.t;
  playlist_index : Z
}.

(** Values of the variables when the module is first imported. *)
Definition initial : Player := {|
  queue := [];
  current := None;
  elapsed := 0;
  is_paused := false;
  loop_track := false;
  loop_playlist := false;
  playlist_mode := false;
  playlist_tracks := [];
  playlist_index := 0
|}.

Definition with_queue (v : list Track.t) (s : Player) : Player :=
  {| queue := v; current := current s; elapsed := elapsed s;
     is_paused := is_paused s; loop_track := loop_track s;
     loop_playlist := loop_playlist s; playlist_mode := playlist_mode s;
     playlist_tracks := playlist_tracks s; playlist_index := playlist_index s |}.

Definition with_current (v : option Track.t) (s : Player) : Player :=
  {| queue := queue s; current := v; elapsed := elapsed s;
     is_paused := is_paused s; loop_track := loop_track s;
     loop_playlist := loop_playlist s; playlist_mode := playlist_mode s;
     playlist_tracks := playlist_tracks s; playlist_index := playlist_index s |}.

Definition with_elapsed (v : Z) (s : Player) : Player :=
  {| queue := queue s; current := current s; elapsed := v;
     is_paused := is_paused s; loop_track := loop_track s;
     loop_playlist := loop_playlist s; playlist_mode := playlist_mode s;
     playlist_tracks := playlist_tracks s; playlist_index := playlist_index s |}.

Definition with_is_paused (v : bool) (s : Player) : Player :=
  {| queue := queue s; current := current s; elapsed := elapsed s;
     is_paused := v; loop_track := loop_track s;
     loop_playlist := loop_playlist s; playlist_mode := playlist_mode s;
     playlist_tracks := playlist_tracks s; playlist_index := playlist_index s |}.

Definition with_loop_track (v : bool) (s : Player) : Player :=
  {| queue := queue s; current := current s; elapsed := elapsed s;
     is_paused := is_paused s; loop_track := v;
     loop_playlist := loop_playlist s; playlist_mode := playlist_mode s;
     playlist_tracks := playlist_tracks s; playlist_index := playlist_index s |}.

Definition with_loop_playlist (v : bool) (s : Player) : Player :=
  {| queue := queue s; current := current s; elapsed := elapsed s;
     is_paused := is_paused s; loop_track := loop_track s;
     loop_playlist := v; playlist_mode := playlist_mode s;
     playlist_tracks := playlist_tracks s; playlist_index := playlist_index s |}.

Definition with_playlist_mode (v : bool) (s : Player) : Player :=
  {| queue := queue s; current := current s; elapsed := elapsed s;
     is_paused := is_paused s; loop_track := loop_track s;
     loop_playlist := loop_playlist s; playlist_mode := v;
     playlist_tracks := playlist_tracks s; playlist_index := playlist_index s |}.

Definition with_playlist_tracks (v : list Track.t) (s : Player) : Player :=
  {| queue := queue s; current := current s; elapsed := elapsed s;
     is_paused := is_paused s; loop_track := loop_track s;
     loop_playlist := loop_playlist s; playlist_mode := playlist_mode s;
     playlist_tracks := v; playlist_index := playlist_index s |}.

Definition with_playlist_index (v : Z) (s : Player) : Player :=
  {| queue := queue s; current := current s; elapsed := elapsed s;
     is_paused := is_paused s; loop_track := loop_track s;
     loop_playlist := loop_playlist s; playlist_mode := playlist_mode s;
     playlist_tracks := playlist_tracks s; playlist_index := v |}.

(** ** Computations over the player *)

Inductive exn : Type :=
  | IndexError     (* list index out of range, pop from an empty deque *)
  | ValueError.    (* deque.remove(x): x not in deque *)

Inductive completion (A : Type) : Type :=
  | Returned (a : A)
  | Raised (e : exn).
Arguments Returned {A} a.
Arguments Raised {A} e.

Definition M (A : Type) : Type := Player -> completion A * Player.

Definition ret {A : Type} (a : A) : M A := fun s => (Returned a, s).

Definition bind {A B : Type} (m : M A) (k : A -> M B) : M B := fun s =>
  match m s with
  | (Returned a, s') => k a s'
  | (Raised e, s') => (Raised e, s')
  end.

Declare Scope player_scope.
Delimit Scope player_scope with player.
Bind Scope player_scope with M.
Notation "x ← m ; k" := (bind m (fun x => k))
  (at level 20, m at level 100, k at level 200, only parsing) : player_scope.
Notation "m ;; k" := (bind m (fun _ => k))
  (at level 100, k at level 200, right associativity) : player_scope.
Local Open Scope player_scope.

Definition raise {A : Type} (e : exn) : M A := fun s => (Raised e, s).

(** Read of a global. *)
Definition gets {A : Type} (field : Player -> A) : M A :=
  fun s => (Returned (field s), s).

(** Assignment to a global. *)
Definition assign {A : Type} (upd : A -> Player -> Player) (v : A) : M unit :=
  fun s => (Returned tt, upd v s).

(** The variables after a computation, however it ended. *)
Definition after {A : Type} (m : M A) (s : Player) : Player := (m s).2.

(** How a computation ended. *)
Definition outcome {A : Type} (m : M A) (s : Player) : completion A := (m s).1.

(** ** Python containers *)

Definition len {A : Type} (l : list A) : Z := Z.of_nat (length l).

(** [l[i]]: a negative index counts from the end; out of range raises. *)
Definition getitem {A : Type} (l : list A) (i : Z) : option A :=
  if i <? 0
  then (if 0 <=? i + len l then l !! Z.to_nat (i + len l) else None)
  else l !! Z.to_nat i.

Definition subscript (l : list Track.t) (i : Z) : M Track.t :=
  match getitem l i with
  | Some x => ret x
  | None => raise IndexError
  end.

(** [deque.remove(x)]: drops the first element equal to [x]. *)
Fixpoint deque_remove (x : Track.t) (q : list Track.t) : option (list Track.t) :=
  match q with
  | [] => None
  | y :: q' =>
      if decide (y = x) then Some q'
      else match deque_remove x q' with
           | Some r => Some (y :: r)
           | None => None
           end
  end.

(** [queue.popleft()] *)
Definition popleft : M Track.t :=
  q ← gets queue;
  match q with
  | [] => raise IndexError
  | t :: q' => assign with_queue q' ;; ret t
  end.

(** Truth value of a list ([if queue:], [not playlist.tracks]). *)
Definition truthy {A : Type} (l : list A) : bool :=
  match l with [] => false | _ :: _ => true end.

(** ** The player ([app/player.py]) *)

Definition reset : M unit :=
  assign with_queue [] ;;
  assign with_current None ;;
  assign with_elapsed 0 ;;
  assign with_loop_track false ;;
  assign with_loop_playlist false ;;
  assign with_playlist_mode false ;;
  assign with_playlist_tracks [] ;;
  assign with_playlist_index 0 ;;
  assign with_is_paused false.

Definition is_stopped : M bool :=
  c ← gets current;
  ret (bool_decide (c = None)).

Definition reset_loops : M unit :=
  assign with_loop_track false ;;
  assign with_loop_playlist false.

Definition get_queue : M (list Track.t) := gets queue.

Definition stop_all : M unit :=
  assign with_current None ;;
  assign with_elapsed 0 ;;
  assign with_playlist_mode false ;;
  assign with_is_paused false ;;
  reset_loops.

(** The tail of the list branch of [next_track]:
    [current = playlist_tracks[playlist_index]; return current]. *)
Definition take_from_playlist : M (option Track.t) :=
  tracks ← gets playlist_tracks;
  i ← gets playlist_index;
  t ← subscript tracks i;
  assign with_current (Some t) ;;
  gets current.

Definition next_track : M (option Track.t) :=
  assign with_elapsed 0 ;;
  assign with_is_paused false ;;
  mode ← gets playlist_mode;
  if mode then
    i ← gets playlist_index;
    assign with_playlist_index (i + 1) ;;
    i ← gets playlist_index;
    tracks ← gets playlist_tracks;
    if len tracks <=? i then
      loop ← gets loop_playlist;
      if loop then
        assign with_playlist_index 0 ;;
        take_from_playlist
      else
        stop_all ;;
        ret None
    else take_from_playlist
  else
    q ← gets queue;
    if truthy q then
      t ← popleft;
      assign with_current (Some t) ;;
      gets current
    else
      stop_all ;;
      ret None.

Definition play : M (option Track.t) :=
  c ← gets current;
  match c with
  | None => next_track
  | Some _ =>
      assign with_is_paused false ;;
      gets current
  end.

Definition stop : M unit :=
  c ← gets current;
  match c with
  | Some _ => assign with_is_paused true
  | None => ret tt
  end.

Definition skip : M (option Track.t) := next_track.

Definition tick : M (option Track.t) :=
  c ← gets current;
  paused ← gets is_paused;
  match c with
  | None => gets current
  | Some t =>
      if paused then gets current
      else
        e ← gets elapsed;
        assign with_elapsed (e + 1) ;;
        e ← gets elapsed;
        if e <? Track.duration t then gets current
        else
          loop ← gets loop_track;
          if loop then
            assign with_elapsed 0 ;;
            gets current
          else next_track
  end.

(** The loop of [remove_from_queue], over the copy [list(queue)]. *)
Fixpoint remove_scan (track_id : Z) (copy : list Track.t) : M bool :=
  match copy with
  | [] => ret false
  | t :: rest =>
      if Track.id t =? track_id then
        q ← gets queue;
        match deque_remove t q with
        | Some q' => assign with_queue q' ;; ret true
        | None => raise ValueError
        end
      else remove_scan track_id rest
  end.

Definition remove_from_queue (track_id : Z) : M bool :=
  copy ← gets queue;
  remove_scan track_id copy.

Definition _select_playlist (tracks : list Track.t) (loop : bool)
  : M (option Track.t) :=
  assign with_playlist_mode true ;;
  assign with_playlist_tracks tracks ;;
  assign with_playlist_index 0 ;;
  assign with_loop_playlist loop ;;
  assign with_queue [] ;;
  t ← subscript tracks 0;
  assign with_current (Some t) ;;
  assign with_elapsed 0 ;;
  assign with_is_paused false ;;
  gets current.

Definition set_loop_track (enabled : bool) : M unit :=
  c ← gets current;
  match c with
  | None => ret tt
  | Some _ =>
      assign with_loop_track enabled ;;
      if enabled then assign with_loop_playlist false else ret tt
  end.

Definition set_loop_playlist (enabled : bool) : M unit :=
  mode ← gets playlist_mode;
  if negb mode then ret tt
  else assign with_loop_playlist enabled.

(** ** The endpoint ([app/websocket.py]) *)

(** A received message whose command is recognised and whose payload has
    the fields the command reads. *)
Inductive command : Type :=
  | cmd_play
  | cmd_pause
  | cmd_stop
  | cmd_skip
  | cmd_track_select (id : Z)
  | cmd_queue_add (track : Z)
  | cmd_queue_remove (id : Z)
  | cmd_playlist_select_id (id : Z) (loop : bool)
  | cmd_playlist_select_name (name : string) (loop : bool)
  | cmd_album_select_id (id : Z) (loop : bool)
  | cmd_loop_track (payload : bool)
  | cmd_loop_playlist (payload : bool).

(** One call into the player: a command, the once-per-iteration [tick], or
    [reset] (called by the tests). *)
Inductive operation : Type :=
  | op_command (c : command)
  | op_tick
  | op_reset.

Section WithDatabase.

Variable db : Database.

Definition add_to_queue (track_id : Z) : M unit :=
  match db_get_track db track_id with
  | None => ret tt
  | Some track =>
      q ← gets queue;
      assign with_queue (q ++ [track]) ;;
      c ← gets current;
      match c with
      | None => play ;; ret tt
      | Some _ => ret tt
      end
  end.

Definition select_track (track_id : Z) : M (option Track.t) :=
  match db_get_track db track_id with
  | None => ret None
  | Some track =>
      assign with_playlist_mode false ;;
      reset_loops ;;
      assign with_current (Some track) ;;
      assign with_elapsed 0 ;;
      assign with_is_paused false ;;
      gets current
  end.

Definition select_playlist_by_id (playlist_id : Z) (loop : bool)
  : M (option Track.t) :=
  match db_get_playlist db playlist_id with
  | None => ret None
  | Some playlist =>
      if negb (truthy (Playlist.tracks playlist)) then ret None
      else _select_playlist (Playlist.tracks playlist) loop
  end.

Definition select_playlist_by_name (name : string) (loop : bool)
  : M (option Track.t) :=
  match db_first_playlist_named db name with
  | None => ret None
  | Some playlist =>
      if negb (truthy (Playlist.tracks playlist)) then ret None
      else _select_playlist (Playlist.tracks playlist) loop
  end.

Definition select_album_by_id (album_id : Z) (loop : bool)
  : M (option Track.t) :=
  match db_get_album db album_id with
  | None => ret None
  | Some album =>
      if negb (truthy (Album.tracks album)) then ret None
      else
        assign with_playlist_mode true ;;
        assign with_playlist_tracks (Album.tracks album) ;;
        assign with_playlist_index 0 ;;
        assign with_loop_playlist loop ;;
        assign with_loop_track false ;;
        assign with_queue [] ;;
        tracks ← gets playlist_tracks;
        t ← subscript tracks 0;
        assign with_current (Some t) ;;
        assign with_elapsed 0 ;;
        gets current
  end.

(** The [if command == ...] chain; results are dropped there. *)
Definition dispatch (c : command) : M unit :=
  match c with
  | cmd_play => play ;; ret tt
  | cmd_pause => stop
  | cmd_stop => stop_all
  | cmd_skip => skip ;; ret tt
  | cmd_track_select id => select_track id ;; ret tt
  | cmd_queue_add track => add_to_queue track
  | cmd_queue_remove id => remove_from_queue id ;; ret tt
  | cmd_playlist_select_id id loop => select_playlist_by_id id loop ;; ret tt
  | cmd_playlist_select_name name loop =>
      select_playlist_by_name name loop ;; ret tt
  | cmd_album_select_id id loop => select_album_by_id id loop ;; ret tt
  | cmd_loop_track payload => set_loop_track payload
  | cmd_loop_playlist payload => set_loop_playlist payload
  end.

Definition perform (o : operation) : M unit :=
  match o with
  | op_command c => dispatch c
  | op_tick => tick ;; ret tt
  | op_reset => reset
  end.

(** [try: ... except Exception: pass] around the command handling. *)
Definition swallow (m : M unit) : M unit := fun s =>
  match m s with
  | (Returned _, s') => (Returned tt, s')
  | (Raised _, s') => (Returned tt, s')
  end.

(** One turn of the [while True] loop of a connection, as far as the player
    is concerned: the command received within the timeout, if any, then
    [player.tick()].  Each open connection runs this loop on its own. *)
Definition iteration (received : option command) : M unit :=
  swallow (match received with
           | Some c => dispatch c
           | None => ret tt
           end) ;;
  tick ;;
  ret tt.

(** The variables after a sequence of calls; a call that raises leaves them
    as they were at the raise, and the next call goes on from there. *)
Definition run (ops : list operation) (s : Player) : Player :=
  fold_left (fun st o => after (perform o) st) ops s.

End WithDatabase.

(** The status message built by [send_status], without its timestamp. *)
Inductive status_name : Type := PLAYING | PAUSED | STOPPED.

Record Status : Type := {
  status : status_name;
  track : option string;
  status_elapsed : Z;
  status_duration : option Z;
  status_queue : list string;
  status_loop_track : bool;
  status_loop_playlist : bool
}.

Definition send_status (s : Player) : Status := {|
  status :=
    match current s with
    | Some _ => if is_paused s then PAUSED else PLAYING
    | None => STOPPED
    end;
  track := Track.title <$> current s;
  status_elapsed := elapsed s;
  status_duration := Track.duration <$> current s;
  status_queue := Track.title <$> queue s;
  status_loop_track := loop_track s;
  status_loop_playlist := loop_playlist s
|}.

(** ** Predicates on the database and on the variables *)

(** The track is not the one asked for. *)
Definition other_id (track_id : Z) (t : Track.t) : Prop :=
  Track.id t <> track_id.

(** A lookup that gives the selection functions nothing to play: no row, or a
    row whose [tracks] is empty. *)
Definition nothing_to_play (found : option (list Track.t)) : Prop :=
  found = None \/ found = Some [].

(** Every track the player can load has a positive duration (the
    [duration_range] constraint of the [tracks] table). *)
Definition positive (t : Track.t) : Prop := 0 < Track.duration t.

Definition every_track (P : Track.t -> Prop) (db : Database) : Prop :=
  Forall P (tracks_table db) /\
  Forall (fun p => Forall P (Playlist.tracks p)) (playlists_table db) /\
  Forall (fun a => Forall P (Album.tracks a)) (albums_table db).

Definition positive_durations (db : Database) : Prop := every_track positive db.

(** The playback position lies inside the current track. *)
Definition position_in_track (s : Player) : Prop :=
  forall t, current s = Some t -> 0 <= elapsed s < Track.duration t.

(** Nothing is left over when nothing plays. *)
Definition stopped_clean (s : Player) : Prop :=
  current s = None ->
  elapsed s = 0 /\ is_paused s = false /\ playlist_mode s = false /\
  loop_track s = false /\ loop_playlist s = false.

(** In list mode the index points into a non-empty list. *)
Definition index_in_bounds (s : Player) : Prop :=
  playlist_mode s = true ->
  playlist_tracks s <> [] /\
  0 <= playlist_index s < len (playlist_tracks s).

(** The index is in bounds and every track the player holds (queued, listed
    or current) satisfies [P]. *)
Definition loaded (P : Track.t -> Prop) (s : Player) : Prop :=
  index_in_bounds s /\
  Forall P (queue s) /\
  Forall P (playlist_tracks s) /\
  (forall t, current s = Some t -> P t).

(** The position lies inside the current track whenever that track has a
    positive duration. *)
Definition position_if_positive (s : Player) : Prop :=
  forall t, current s = Some t ->
    0 < Track.duration t -> 0 <= elapsed s < Track.duration t.

(** A call that returns and leaves the index in bounds, the tracks held
    within [P] and the position inside the track. *)
Definition kept (P : Track.t -> Prop) {A : Type} (m : M A) (s : Player)
  : Prop :=
  loaded P (after m s) /\
  position_if_positive (after m s) /\
  exists r, outcome m s = Returned r.

(** ** Sample data for the concrete runs *)

Definition song_a : Track.t := Track.mk 1 "A" 2 None (Some 1).
Definition song_b : Track.t := Track.mk 2 "B" 3 None (Some 1).

Definition sample_db : Database := {|
  tracks_table := [song_a; song_b];
  playlists_table := [Playlist.mk 1 "mix" 1 [song_a; song_b];
                      Playlist.mk 2 "blank" 1 []];
  albums_table := [Album.mk 1 "album" 1 [song_a; song_b]]
|}.

(** [song_a] playing from the queue, [song_b] waiting. *)
Definition playing_a : Player := {|
  queue := [song_b];
  current := Some song_a;
  elapsed := 0;
  is_paused := false;
  loop_track := false;
  loop_playlist := false;
  playlist_mode := false;
  playlist_tracks := [];
  playlist_index := 0
|}.

(** The same, paused. *)
Definition paused_a : Player := with_is_paused true playing_a.

(** The playlist "mix" playing its first track. *)
Definition playing_mix : Player := {|
  queue := [];
  current := Some song_a;
  elapsed := 0;
  is_paused := false;
  loop_track := false;
  loop_playlist := false;
  playlist_mode := true;
  playlist_tracks := [song_a; song_b];
  playlist_index := 0
|}.

(** ** Further predicates, the turns of a connection, more sample states *)

(** [loop_playlist] is on only in list mode. *)
Definition loop_playlist_in_list_mode (s : Player) : Prop :=
  loop_playlist s = true -> playlist_mode s = true.

(** In list mode a track is current and it is the list entry at the index. *)
Definition current_is_entry (s : Player) : Prop :=
  playlist_mode s = true ->
  exists t,
    current s = Some t /\
    playlist_tracks s !! Z.to_nat (playlist_index s) = Some t.

(** The calls into the player made by one turn of a connection's loop. *)
Definition turn_calls (received : option command) : list operation :=
  match received with
  | Some c => [op_command c; op_tick]
  | None => [op_tick]
  end.

(** The variables after the turns of the connections' loops, in the order in
    which they ran; each turn is given by what it received. *)
Definition session (db : Database) (turns : list (option command))
    (s : Player) : Player :=
  fold_left (fun st received => after (iteration db received) st) turns s.

(** One loop period (the [asyncio.sleep(1)] of each loop, about a second)
    in which each of the open connections takes one turn and none receives a
    command. *)
Definition period (connections : nat) : list (option command) :=
  replicate connections None.

(** [song_a] playing from the queue under [loop_track]. *)
Definition looping_a : Player := with_loop_track true playing_a.

(** The playlist "mix" playing its first track under [loop_playlist]. *)
Definition looping_mix : Player := with_loop_playlist true playing_mix.

(** Nothing plays, [song_b] is still queued (the state after the stop
    command in [playing_a]). *)
Definition stopped_with_b : Player := with_queue [song_b] initial.

(** * Properties *)

Ltac player_cbn :=
  cbn [queue current elapsed is_paused loop_track loop_playlist playlist_mode
       playlist_tracks playlist_index with_queue with_current with_elapsed
       with_is_paused with_loop_track with_loop_playlist with_playlist_mode
       with_playlist_tracks with_playlist_index fst snd] in *.

Ltac unfold_player :=
  unfold tick, play, stop, skip, next_track, take_from_playlist, stop_all,
    reset_loops, reset, popleft, subscript, set_loop_track, set_loop_playlist,
    _select_playlist, remove_from_queue, after, outcome in *;
  unfold bind, ret, gets, assign, raise in *;
  player_cbn.

(** ** Python indexing *)

Lemma getitem_in_range {A : Type} (l : list A) (i : Z) :
  0 <= i < len l -> getitem l i = l !! Z.to_nat i.
Proof.
  intros [Hlo Hhi]. unfold getitem.
  destruct (Z.ltb_spec i 0); [lia | reflexivity].
Qed.

Lemma getitem_is_Some {A : Type} (l : list A) (i : Z) :
  0 <= i < len l -> is_Some (getitem l i).
Proof.
  intros Hi. rewrite getitem_in_range by exact Hi.
  apply lookup_lt_is_Some. unfold len in Hi. lia.
Qed.

Lemma getitem_head {A : Type} (x : A) (l : list A) : getitem (x :: l) 0 = Some x.
Proof. reflexivity. Qed.

(** ** [stop_all] and [tick] *)

Lemma stop_all_spec (s : Player) :
  stop_all s =
  (Returned tt,
   {| queue := queue s; current := None; elapsed := 0; is_paused := false;
      loop_track := false; loop_playlist := false; playlist_mode := false;
      playlist_tracks := playlist_tracks s;
      playlist_index := playlist_index s |}).
Proof. reflexivity. Qed.

Lemma tick_idle (s : Player) :
  current s = None \/ is_paused s = true -> tick s = (Returned (current s), s).
Proof.
  destruct s as [q c e p lt lp m ts i]; cbn.
  intros [-> | ->]; [reflexivity |].
  destruct c; reflexivity.
Qed.

Lemma ticks_idle (s : Player) (n : nat) :
  current s = None \/ is_paused s = true -> Nat.iter n (after tick) s = s.
Proof.
  intros H. induction n as [|n IH]; [reflexivity |].
  change (Nat.iter (S n) (after tick) s)
    with (after tick (Nat.iter n (after tick) s)).
  rewrite IH. unfold after. rewrite tick_idle by exact H.
  reflexivity.
Qed.

Lemma tick_track_end (s : Player) (t : Track.t) :
  current s = Some t -> is_paused s = false ->
  Track.duration t <= elapsed s + 1 -> loop_track s = false ->
  tick s = next_track (with_elapsed (elapsed s + 1) s).
Proof.
  destruct s as [q c e p lt lp m ts i]; cbn. intros -> -> Hge ->.
  unfold_player.
  destruct (Z.ltb_spec (e + 1) (Track.duration t)); [lia | reflexivity].
Qed.

(** C3: [tick] returns [current] and changes nothing when nothing plays or
    the player is paused, so any number of ticks leaves a paused player as it
    is, and after [play] the next tick counts again; otherwise it adds one to
    [elapsed] and then returns [current] if the track has not ended, restarts
    the track under [loop_track], and hands over to [next_track] if not. *)
Theorem tick_spec (s : Player) :
  (current s = None \/ is_paused s = true ->
     tick s = (Returned (current s), s)) /\
  (is_paused s = true -> forall n : nat, Nat.iter n (after tick) s = s) /\
  (forall t, current s = Some t -> is_paused s = true ->
     elapsed s + 1 < Track.duration t ->
     (play ;; tick) s =
     (Returned (Some t), with_elapsed (elapsed s + 1) (with_is_paused false s))) /\
  (forall t, current s = Some t -> is_paused s = false ->
     (elapsed s + 1 < Track.duration t ->
        tick s = (Returned (Some t), with_elapsed (elapsed s + 1) s)) /\
     (Track.duration t <= elapsed s + 1 -> loop_track s = true ->
        tick s = (Returned (Some t), with_elapsed 0 s)) /\
     (Track.duration t <= elapsed s + 1 -> loop_track s = false ->
        tick s = next_track (with_elapsed (elapsed s + 1) s))).
Proof.
  split; [apply tick_idle |].
  split; [intros Hp n; apply ticks_idle; right; exact Hp |].
  split.
  - destruct s as [q c e p lt lp m ts i]; cbn.
    intros t -> -> Hlt. unfold_player.
    destruct (Z.ltb_spec (e + 1) (Track.duration t)); [reflexivity | lia].
  - intros t Hc Hp. split; [| split].
    + destruct s as [q c e p lt lp m ts i]; cbn in *. subst c p.
      intros Hlt. unfold_player.
      destruct (Z.ltb_spec (e + 1) (Track.duration t)); [reflexivity | lia].
    + destruct s as [q c e p lt lp m ts i]; cbn in *. subst c p.
      intros Hge ->. unfold_player.
      destruct (Z.ltb_spec (e + 1) (Track.duration t)); [lia | reflexivity].
    + apply tick_track_end; assumption.
Qed.

(** ** [next_track] *)

Lemma next_track_list_step (s : Player) :
  playlist_mode s = true ->
  0 <= playlist_index s + 1 < len (playlist_tracks s) ->
  exists t,
    playlist_tracks s !! Z.to_nat (playlist_index s + 1) = Some t /\
    next_track s =
    (Returned (Some t),
     {| queue := queue s; current := Some t; elapsed := 0; is_paused := false;
        loop_track := loop_track s; loop_playlist := loop_playlist s;
        playlist_mode := true; playlist_tracks := playlist_tracks s;
        playlist_index := playlist_index s + 1 |}).
Proof.
  destruct s as [q c e p lt lp m ts i]; cbn. intros -> Hi.
  destruct (getitem_is_Some ts (i + 1) Hi) as [t Ht].
  exists t. split; [rewrite <- getitem_in_range by exact Hi; exact Ht |].
  unfold_player.
  destruct (Z.leb_spec (len ts) (i + 1)); [lia |].
  player_cbn. rewrite Ht. reflexivity.
Qed.

Lemma next_track_list_wrap (s : Player) :
  playlist_mode s = true ->
  len (playlist_tracks s) <= playlist_index s + 1 ->
  loop_playlist s = true ->
  playlist_index (after next_track s) = 0 /\
  forall t, head (playlist_tracks s) = Some t ->
    next_track s =
    (Returned (Some t),
     {| queue := queue s; current := Some t; elapsed := 0; is_paused := false;
        loop_track := loop_track s; loop_playlist := true;
        playlist_mode := true; playlist_tracks := playlist_tracks s;
        playlist_index := 0 |}).
Proof.
  destruct s as [q c e p lt lp m ts i]; cbn. intros -> Hi ->.
  unfold_player.
  destruct (Z.leb_spec (len ts) (i + 1)); [| lia].
  destruct ts as [|t0 ts]; cbn; [split; [reflexivity | discriminate] |].
  split; [reflexivity |]. intros t [= ->]. reflexivity.
Qed.

Lemma next_track_list_end (s : Player) :
  playlist_mode s = true ->
  len (playlist_tracks s) <= playlist_index s + 1 ->
  loop_playlist s = false ->
  next_track s =
  (Returned None, after stop_all (with_playlist_index (playlist_index s + 1) s)).
Proof.
  destruct s as [q c e p lt lp m ts i]; cbn. intros -> Hi ->.
  unfold_player.
  destruct (Z.leb_spec (len ts) (i + 1)); [reflexivity | lia].
Qed.

Lemma next_track_queue_pop (s : Player) (t : Track.t) (q : list Track.t) :
  playlist_mode s = false ->
  queue s = t :: q ->
  next_track s =
  (Returned (Some t),
   {| queue := q; current := Some t; elapsed := 0; is_paused := false;
      loop_track := loop_track s; loop_playlist := loop_playlist s;
      playlist_mode := false; playlist_tracks := playlist_tracks s;
      playlist_index := playlist_index s |}).
Proof.
  destruct s as [q0 c e p lt lp m ts i]; cbn. intros -> ->. reflexivity.
Qed.

Lemma next_track_queue_empty (s : Player) :
  playlist_mode s = false ->
  queue s = [] ->
  next_track s = (Returned None, after stop_all s).
Proof.
  destruct s as [q0 c e p lt lp m ts i]; cbn. intros -> ->. reflexivity.
Qed.

(** The wrap to index 0 is the one place where [next_track] can raise: with
    an empty list there is no entry 0. *)
Lemma next_track_wrap_empty (s : Player) :
  playlist_mode s = true ->
  playlist_tracks s = [] ->
  0 <= playlist_index s + 1 ->
  loop_playlist s = true ->
  outcome next_track s = Raised IndexError.
Proof.
  destruct s as [q c e p lt lp m ts i]; cbn. intros -> -> Hi ->.
  unfold_player.
  destruct (Z.leb_spec (len (@nil Track.t)) (i + 1)) as [_ | H];
    [reflexivity | unfold len in H; simpl in H; lia].
Qed.

Lemma next_track_clears_position (s : Player) :
  elapsed (after next_track s) = 0 /\ is_paused (after next_track s) = false.
Proof.
  destruct s as [q c e p lt lp m ts i]. unfold_player.
  repeat case_match; simplify_eq; cbn; auto.
Qed.

(** C4: [next_track], which [skip] always calls, [play] calls when nothing
    is playing and [tick] calls when a track ends outside [loop_track], sets
    [elapsed] to 0 and clears the pause.  In list mode it
    moves the index on by one: short of the end of the list the entry there
    becomes [current]; at the end, under [loop_playlist], the index goes back
    to 0 and the first entry becomes [current], and without it [stop_all]
    runs and the result is [None].  In queue mode the head of the queue
    becomes [current], or [stop_all] runs and the result is [None] when the
    queue is empty. *)
Theorem next_track_spec (s : Player) :
  skip s = next_track s /\
  (current s = None -> play s = next_track s) /\
  (forall t, current s = Some t -> is_paused s = false ->
     Track.duration t <= elapsed s + 1 -> loop_track s = false ->
     tick s = next_track (with_elapsed (elapsed s + 1) s)) /\
  elapsed (after next_track s) = 0 /\
  is_paused (after next_track s) = false /\
  (playlist_mode s = true ->
     (0 <= playlist_index s + 1 < len (playlist_tracks s) ->
        exists t,
          playlist_tracks s !! Z.to_nat (playlist_index s + 1) = Some t /\
          next_track s =
          (Returned (Some t),
           {| queue := queue s; current := Some t; elapsed := 0;
              is_paused := false; loop_track := loop_track s;
              loop_playlist := loop_playlist s; playlist_mode := true;
              playlist_tracks := playlist_tracks s;
              playlist_index := playlist_index s + 1 |})) /\
     (len (playlist_tracks s) <= playlist_index s + 1 ->
        loop_playlist s = true ->
        playlist_index (after next_track s) = 0 /\
        forall t, head (playlist_tracks s) = Some t ->
          next_track s =
          (Returned (Some t),
           {| queue := queue s; current := Some t; elapsed := 0;
              is_paused := false; loop_track := loop_track s;
              loop_playlist := true; playlist_mode := true;
              playlist_tracks := playlist_tracks s;
              playlist_index := 0 |})) /\
     (len (playlist_tracks s) <= playlist_index s + 1 ->
        loop_playlist s = false ->
        next_track s =
        (Returned None,
         after stop_all (with_playlist_index (playlist_index s + 1) s)))) /\
  (playlist_mode s = false ->
     (forall t q, queue s = t :: q ->
        next_track s =
        (Returned (Some t),
         {| queue := q; current := Some t; elapsed := 0; is_paused := false;
            loop_track := loop_track s; loop_playlist := loop_playlist s;
            playlist_mode := false; playlist_tracks := playlist_tracks s;
            playlist_index := playlist_index s |})) /\
     (queue s = [] -> next_track s = (Returned None, after stop_all s))).
Proof.
  split; [reflexivity |].
  split; [intros Hc; unfold play, bind, gets; rewrite Hc; reflexivity |].
  split; [intros t; apply tick_track_end |].
  split; [apply next_track_clears_position |].
  split; [apply next_track_clears_position |].
  split.
  - intros Hm. repeat split.
    + apply next_track_list_step; assumption.
    + apply next_track_list_wrap; assumption.
    + apply next_track_list_wrap; assumption.
    + apply next_track_list_end; assumption.
  - intros Hm. split.
    + intros t q Hq. apply next_track_queue_pop; assumption.
    + apply next_track_queue_empty; assumption.
Qed.

(** ** Loop flags *)

Lemma set_loop_track_stopped (s : Player) (enabled : bool) :
  current s = None -> set_loop_track enabled s = (Returned tt, s).
Proof.
  destruct s as [q c e p lt lp m ts i]; cbn. intros ->. reflexivity.
Qed.

Lemma set_loop_track_on (s : Player) :
  current s <> None ->
  set_loop_track true s =
  (Returned tt, with_loop_playlist false (with_loop_track true s)).
Proof.
  destruct s as [q [t|] e p lt lp m ts i]; cbn; [reflexivity | congruence].
Qed.

Lemma set_loop_playlist_queue_mode (s : Player) (enabled : bool) :
  playlist_mode s = false -> set_loop_playlist enabled s = (Returned tt, s).
Proof.
  destruct s as [q c e p lt lp m ts i]; cbn. intros ->. reflexivity.
Qed.

Lemma set_loop_playlist_keeps_loop_track (s : Player) (enabled : bool) :
  loop_track (after (set_loop_playlist enabled) s) = loop_track s.
Proof.
  destruct s as [q c e p lt lp [|] ts i]; reflexivity.
Qed.

(** ** Lookups that find nothing *)

Section NotFound.

Variable db : Database.

Lemma select_playlist_nothing
    (found : option Playlist.t) (loop : bool) (s : Player) :
  nothing_to_play (Playlist.tracks <$> found) ->
  match found with
  | None => ret None
  | Some playlist =>
      if negb (truthy (Playlist.tracks playlist)) then ret None
      else _select_playlist (Playlist.tracks playlist) loop
  end s = (Returned None, s).
Proof.
  destruct found as [[pk name owner ts]|]; cbn; [| reflexivity].
  intros [H | H]; [discriminate |]. injection H as ->. reflexivity.
Qed.

(** C7: when the database has no such track, [add_to_queue] and
    [select_track] change nothing; when it has no such playlist or album, or
    one without tracks, [select_playlist_by_id], [select_playlist_by_name]
    and [select_album_by_id] change nothing; the selections return [None]
    ([add_to_queue] returns nothing in any case). *)
Theorem not_found_changes_nothing (s : Player) :
  (forall track_id, db_get_track db track_id = None ->
     add_to_queue db track_id s = (Returned tt, s) /\
     select_track db track_id s = (Returned None, s)) /\
  (forall playlist_id loop,
     nothing_to_play (Playlist.tracks <$> db_get_playlist db playlist_id) ->
     select_playlist_by_id db playlist_id loop s = (Returned None, s)) /\
  (forall name loop,
     nothing_to_play (Playlist.tracks <$> db_first_playlist_named db name) ->
     select_playlist_by_name db name loop s = (Returned None, s)) /\
  (forall album_id loop,
     nothing_to_play (Album.tracks <$> db_get_album db album_id) ->
     select_album_by_id db album_id loop s = (Returned None, s)).
Proof.
  repeat split.
  - unfold add_to_queue. rewrite H. reflexivity.
  - unfold select_track. rewrite H. reflexivity.
  - intros playlist_id loop H. unfold select_playlist_by_id.
    apply select_playlist_nothing. exact H.
  - intros name loop H. unfold select_playlist_by_name.
    apply select_playlist_nothing. exact H.
  - intros album_id loop H. unfold select_album_by_id.
    destruct (db_get_album db album_id) as [[pk title artist ts]|]; cbn in *;
      [| reflexivity].
    destruct H as [H | H]; [discriminate |]. injection H as ->. reflexivity.
Qed.

End NotFound.

(** ** Removal from the queue *)

Lemma deque_remove_first (t : Track.t) (before behind : list Track.t) :
  Forall (fun x => x <> t) before ->
  deque_remove t (before ++ t :: behind) = Some (before ++ behind).
Proof.
  induction 1 as [|x before Hx _ IH]; cbn.
  - destruct (decide (t = t)); [reflexivity | congruence].
  - destruct (decide (x = t)); [contradiction |]. rewrite IH. reflexivity.
Qed.

Lemma remove_scan_no_match (track_id : Z) (copy : list Track.t) (s : Player) :
  Forall (other_id track_id) copy ->
  remove_scan track_id copy s = (Returned false, s).
Proof.
  induction 1 as [|x copy Hx _ IH]; cbn; [reflexivity |].
  destruct (Z.eqb_spec (Track.id x) track_id); [contradiction | exact IH].
Qed.

Lemma remove_scan_first_match
    (track_id : Z) (before : list Track.t) (t : Track.t)
    (behind : list Track.t) (s : Player) :
  Forall (other_id track_id) before ->
  Track.id t = track_id ->
  remove_scan track_id (before ++ t :: behind) s =
  match deque_remove t (queue s) with
  | Some q' => (Returned true, with_queue q' s)
  | None => (Raised ValueError, s)
  end.
Proof.
  intros Hbefore Ht.
  induction Hbefore as [|x before Hx _ IH]; cbn.
  - destruct (Z.eqb_spec (Track.id t) track_id); [| contradiction].
    unfold bind, gets. destruct (deque_remove t (queue s)); reflexivity.
  - destruct (Z.eqb_spec (Track.id x) track_id); [contradiction | exact IH].
Qed.

(** Every queue either has no entry of the given id or splits at the first
    one. *)
Lemma first_match_split (track_id : Z) (q : list Track.t) :
  Forall (other_id track_id) q \/
  exists before t behind,
    q = before ++ t :: behind /\
    Forall (other_id track_id) before /\ Track.id t = track_id.
Proof.
  induction q as [|x q IH]; [left; constructor |].
  destruct (decide (Track.id x = track_id)) as [Hx | Hx].
  - right. exists [], x, q. repeat split; [constructor | exact Hx].
  - destruct IH as [IH | (before & t & behind & -> & Hb & Ht)].
    + left. constructor; assumption.
    + right. exists (x :: before), t, behind.
      repeat split; [constructor; assumption | exact Ht].
Qed.

(** C8: [remove_from_queue] returns [False] and changes nothing when no
    queued track has the id; otherwise it returns [True] and the queue loses
    its first entry of that id and nothing else.  Every other variable keeps
    its value in both cases, whatever [current] is. *)
Theorem remove_from_queue_spec (s : Player) (track_id : Z) :
  (Forall (other_id track_id) (queue s) ->
     remove_from_queue track_id s = (Returned false, s)) /\
  (forall before t behind,
     queue s = before ++ t :: behind ->
     Forall (other_id track_id) before ->
     Track.id t = track_id ->
     remove_from_queue track_id s =
     (Returned true,
      {| queue := before ++ behind; current := current s;
         elapsed := elapsed s; is_paused := is_paused s;
         loop_track := loop_track s; loop_playlist := loop_playlist s;
         playlist_mode := playlist_mode s;
         playlist_tracks := playlist_tracks s;
         playlist_index := playlist_index s |})).
Proof.
  split.
  - intros H. unfold remove_from_queue, bind, gets.
    apply remove_scan_no_match. exact H.
  - intros before t behind Hq Hbefore Ht.
    unfold remove_from_queue, bind, gets. rewrite Hq.
    rewrite remove_scan_first_match by assumption.
    rewrite Hq, deque_remove_first; [reflexivity |].
    eapply Forall_impl; [exact Hbefore |].
    intros x Hx ->. apply Hx. exact Ht.
Qed.

(** [remove_from_queue] always returns: the entry it removes is in the queue. *)
Lemma remove_from_queue_returns (s : Player) (track_id : Z) :
  exists b q',
    remove_from_queue track_id s = (Returned b, with_queue q' s) /\
    (forall P : Track.t -> Prop, Forall P (queue s) -> Forall P q').
Proof.
  destruct (first_match_split track_id (queue s))
    as [H | (before & t & behind & Hq & Hb & Ht)].
  - exists false, (queue s). split.
    + unfold remove_from_queue, bind, gets.
      rewrite remove_scan_no_match by exact H.
      destruct s; reflexivity.
    + auto.
  - exists true, (before ++ behind). split.
    + unfold remove_from_queue, bind, gets. rewrite Hq.
      rewrite remove_scan_first_match by assumption.
      rewrite Hq, deque_remove_first; [reflexivity |].
      eapply Forall_impl; [exact Hb |].
      intros x Hx ->. apply Hx. exact Ht.
    + intros P. rewrite Hq, !Forall_app, Forall_cons. tauto.
Qed.

(** ** Nothing is left over when nothing plays *)

Ltac break_player :=
  repeat match goal with
         | s : Player |- _ => destruct s
         end;
  unfold stopped_clean in *; unfold_player;
  cbn [truthy negb Playlist.tracks Album.tracks] in *;
  rewrite ?getitem_head in *;
  repeat (case_match; player_cbn; simplify_eq);
  player_cbn; intros;
  repeat match goal with
         | H : ?a = ?b -> _, H' : ?a = ?b |- _ => specialize (H H')
         | H : ?a = ?a -> _ |- _ => specialize (H eq_refl)
         end;
  try congruence; destruct_and?; repeat split; congruence.

Lemma stopped_clean_initial : stopped_clean initial.
Proof. unfold stopped_clean. cbn. auto. Qed.

Lemma stopped_clean_with_queue (q : list Track.t) (s : Player) :
  stopped_clean s -> stopped_clean (with_queue q s).
Proof. break_player. Qed.

Lemma stopped_clean_stop_all (s : Player) : stopped_clean (after stop_all s).
Proof. break_player. Qed.

Lemma stopped_clean_next_track (s : Player) :
  stopped_clean s -> stopped_clean (after next_track s).
Proof. break_player. Qed.

Lemma stopped_clean_play (s : Player) :
  stopped_clean s -> stopped_clean (after play s).
Proof. break_player. Qed.

Lemma stopped_clean_tick (s : Player) :
  stopped_clean s -> stopped_clean (after tick s).
Proof. break_player. Qed.

Ltac unfold_selection :=
  unfold add_to_queue, select_track, select_playlist_by_id,
    select_playlist_by_name, select_album_by_id, after in *.

Lemma stopped_clean_remove_from_queue (s : Player) (track_id : Z) :
  stopped_clean s -> stopped_clean (after (remove_from_queue track_id) s).
Proof.
  intros H.
  destruct (remove_from_queue_returns s track_id) as (b & q' & Heq & _).
  unfold after. rewrite Heq. apply stopped_clean_with_queue. exact H.
Qed.

Section StoppedClean.

Variable db : Database.

Lemma stopped_clean_dispatch (c : command) (s : Player) :
  stopped_clean s -> stopped_clean (after (dispatch db c) s).
Proof.
  destruct c; cbn [dispatch].
  - intros H. apply stopped_clean_play in H. revert H.
    unfold after, bind. destruct (play s) as [[r|x] s']; auto.
  - break_player.
  - intros _. apply stopped_clean_stop_all.
  - intros H. apply stopped_clean_next_track in H. revert H.
    unfold skip, after, bind. destruct (next_track s) as [[r|x] s']; auto.
  - unfold_selection. break_player.
  - unfold_selection. break_player.
  - intros H. apply (stopped_clean_remove_from_queue _ id) in H. revert H.
    unfold after, bind.
    destruct (remove_from_queue id s) as [[r|x] s']; auto.
  - unfold_selection.
    destruct (db_get_playlist db id) as [[pk nm ow [|t ts]]|]; break_player.
  - unfold_selection.
    destruct (db_first_playlist_named db name) as [[pk nm ow [|t ts]]|];
      break_player.
  - unfold_selection.
    destruct (db_get_album db id) as [[pk nm ar [|t ts]]|]; break_player.
  - break_player.
  - destruct s as [q c e p lt lp [|] ts i]; break_player.
Qed.

Lemma stopped_clean_perform (o : operation) (s : Player) :
  stopped_clean s -> stopped_clean (after (perform db o) s).
Proof.
  destruct o; cbn [perform].
  - apply stopped_clean_dispatch.
  - intros H. apply stopped_clean_tick in H. revert H.
    unfold after, bind. destruct (tick s) as [[r|x] s']; auto.
  - break_player.
Qed.

Lemma run_snoc (ops : list operation) (o : operation) (s : Player) :
  run db (ops ++ [o]) s = after (perform db o) (run db ops s).
Proof. unfold run. rewrite fold_left_app. reflexivity. Qed.

Lemma stopped_clean_run (ops : list operation) :
  stopped_clean (run db ops initial).
Proof.
  induction ops as [|o ops IH] using rev_ind.
  - apply stopped_clean_initial.
  - rewrite run_snoc. apply stopped_clean_perform. exact IH.
Qed.

(** C9: when nothing plays, [elapsed] is 0 and the pause, the list mode
    and both loop flags are off.  This holds of the initial values and every
    call into the player keeps it, so every status message that says
    STOPPED carries [elapsed] 0 and both loop flags off. *)
Theorem stopped_is_clean :
  stopped_clean initial /\
  (forall (o : operation) (s : Player),
     stopped_clean s -> stopped_clean (after (perform db o) s)) /\
  (forall ops : list operation,
     let message := send_status (run db ops initial) in
     status message = STOPPED ->
     status_elapsed message = 0 /\
     status_loop_track message = false /\
     status_loop_playlist message = false).
Proof.
  split; [apply stopped_clean_initial |].
  split; [apply stopped_clean_perform |].
  intros ops message Hstopped.
  pose proof (stopped_clean_run ops) as Hclean.
  subst message. unfold send_status in *. cbn in *.
  destruct (current (run db ops initial)) as [t|] eqn:Hc.
  - destruct (is_paused (run db ops initial)); discriminate.
  - destruct (Hclean Hc) as (He & _ & _ & Hlt & Hlp). auto.
Qed.

End StoppedClean.

(** C2, as the code has it: with a current track, [set_loop_track(True)]
    followed by [set_loop_playlist(True)] leaves [loop_track] set, because
    [set_loop_playlist] never writes [loop_track]: in list mode it assigns
    [loop_playlist] and nothing else, outside list mode it does nothing.
    [set_loop_track] does nothing when nothing plays; with a track current
    it assigns [loop_track], and switching it on clears [loop_playlist]; so
    after [set_loop_track(True)] the flag [loop_playlist] is off in every
    state the player reaches. *)
Theorem loop_flags_spec (db : Database) (s : Player) :
  (current s <> None ->
     loop_track (after (set_loop_track true ;; set_loop_playlist true) s)
     = true) /\
  (forall enabled,
     loop_track (after (set_loop_playlist enabled) s) = loop_track s) /\
  (forall enabled, playlist_mode s = true ->
     set_loop_playlist enabled s = (Returned tt, with_loop_playlist enabled s)) /\
  (forall enabled, playlist_mode s = false ->
     set_loop_playlist enabled s = (Returned tt, s)) /\
  (forall enabled, current s = None ->
     set_loop_track enabled s = (Returned tt, s)) /\
  (current s <> None ->
     set_loop_track true s =
     (Returned tt, with_loop_playlist false (with_loop_track true s)) /\
     set_loop_track false s = (Returned tt, with_loop_track false s)) /\
  (forall ops : list operation,
     loop_playlist (after (set_loop_track true) (run db ops initial)) = false).
Proof.
  split; [| split; [| split; [| split; [| split; [| split]]]]].
  - destruct s as [q [t|] e p lt lp [|] ts i]; player_cbn; intros Hc;
      solve [reflexivity | destruct Hc; reflexivity].
  - intros enabled. apply set_loop_playlist_keeps_loop_track.
  - intros enabled.
    destruct s as [q c e p lt lp m ts i]; player_cbn. intros ->. reflexivity.
  - intros enabled. apply set_loop_playlist_queue_mode.
  - intros enabled. apply set_loop_track_stopped.
  - intros Hc. split; [apply set_loop_track_on; exact Hc |].
    destruct s as [q [t|] e p lt lp m ts i];
      [reflexivity | destruct Hc; reflexivity].
  - intros ops. pose proof (stopped_clean_run db ops) as Hclean.
    unfold after.
    destruct (current (run db ops initial)) as [t|] eqn:Hc.
    + rewrite set_loop_track_on by congruence. reflexivity.
    + rewrite set_loop_track_stopped by exact Hc.
      apply (Hclean Hc).
Qed.

(** ** What a call to [next_track] can do when the index is in bounds *)

Lemma index_in_bounds_head (s : Player) :
  index_in_bounds s -> playlist_mode s = true ->
  exists t, head (playlist_tracks s) = Some t /\ t ∈ playlist_tracks s.
Proof.
  intros H Hm. destruct (H Hm) as [Hne _].
  destruct (playlist_tracks s) as [|t ts]; [contradiction |].
  exists t. split; [reflexivity | left].
Qed.

Lemma next_track_cases (s : Player) :
  index_in_bounds s ->
  (exists t i,
     playlist_mode s = true /\ t ∈ playlist_tracks s /\
     0 <= i < len (playlist_tracks s) /\
     next_track s =
     (Returned (Some t),
      {| queue := queue s; current := Some t; elapsed := 0;
         is_paused := false; loop_track := loop_track s;
         loop_playlist := loop_playlist s; playlist_mode := true;
         playlist_tracks := playlist_tracks s; playlist_index := i |})) \/
  (exists t q,
     playlist_mode s = false /\ queue s = t :: q /\
     next_track s =
     (Returned (Some t),
      {| queue := q; current := Some t; elapsed := 0; is_paused := false;
         loop_track := loop_track s; loop_playlist := loop_playlist s;
         playlist_mode := false; playlist_tracks := playlist_tracks s;
         playlist_index := playlist_index s |})) \/
  (exists i,
     next_track s =
     (Returned None,
      {| queue := queue s; current := None; elapsed := 0; is_paused := false;
         loop_track := false; loop_playlist := false; playlist_mode := false;
         playlist_tracks := playlist_tracks s; playlist_index := i |})).
Proof.
  intros Hin.
  destruct (playlist_mode s) eqn:Hm.
  - destruct (Hin Hm) as [Hne Hi].
    destruct (Z.lt_ge_cases (playlist_index s + 1) (len (playlist_tracks s)))
      as [Hlt | Hge].
    + left.
      destruct (next_track_list_step s Hm) as (t & Ht & Heq); [lia |].
      exists t, (playlist_index s + 1). repeat split; try lia; try exact Heq.
      apply list_elem_of_lookup. eauto.
    + destruct (loop_playlist s) eqn:Hlp.
      * left.
        destruct (index_in_bounds_head s Hin Hm) as (t & Hhd & Hel).
        destruct (next_track_list_wrap s Hm Hge Hlp) as [_ Heq].
        exists t, 0. repeat split; try lia; try exact Hel.
        exact (Heq t Hhd).
      * right. right. exists (playlist_index s + 1).
        rewrite (next_track_list_end s Hm Hge Hlp). reflexivity.
  - destruct (queue s) as [|t q] eqn:Hq.
    + right. right. exists (playlist_index s).
      rewrite (next_track_queue_empty s Hm Hq). unfold after.
      rewrite stop_all_spec, Hq. reflexivity.
    + right. left. exists t, q. repeat split.
      apply next_track_queue_pop; assumption.
Qed.

Lemma tick_cases (s : Player) :
  tick s = (Returned (current s), s) \/
  (exists t,
     current s = Some t /\ elapsed s + 1 < Track.duration t /\
     tick s = (Returned (Some t), with_elapsed (elapsed s + 1) s)) \/
  (exists t,
     current s = Some t /\
     tick s = (Returned (Some t), with_elapsed 0 s)) \/
  tick s = next_track (with_elapsed (elapsed s + 1) s).
Proof.
  destruct s as [q [t|] e [|] lt lp m ts i]; try (left; reflexivity).
  destruct (Z.lt_ge_cases (e + 1) (Track.duration t)) as [Hlt | Hge].
  - right. left. exists t. repeat split; [exact Hlt |].
    unfold_player.
    destruct (Z.ltb_spec (e + 1) (Track.duration t)); [reflexivity | lia].
  - destruct lt.
    + right. right. left. exists t. split; [reflexivity |].
      unfold_player.
      destruct (Z.ltb_spec (e + 1) (Track.duration t)); [lia | reflexivity].
    + right. right. right. unfold_player.
      destruct (Z.ltb_spec (e + 1) (Track.duration t)); [lia | reflexivity].
Qed.

Lemma play_cases (s : Player) :
  (current s = None /\ play s = next_track s) \/
  (exists t,
     current s = Some t /\
     play s = (Returned (Some t), with_is_paused false s)).
Proof.
  destruct s as [q [t|] e p lt lp m ts i];
    [right; exists t; split | left; split]; reflexivity.
Qed.

(** ** The index stays in bounds and the position inside the track *)

Lemma loaded_initial (P : Track.t -> Prop) : loaded P initial.
Proof.
  unfold loaded, index_in_bounds. cbn.
  repeat split; try constructor; discriminate.
Qed.

Lemma position_initial : position_if_positive initial.
Proof. intros t. discriminate. Qed.

Lemma len_pos_nonempty {A : Type} (l : list A) (i : Z) :
  0 <= i < len l -> l <> [].
Proof. intros Hi ->. unfold len in Hi. cbn in Hi. lia. Qed.

Lemma len_cons_pos {A : Type} (x : A) (l : list A) : 0 <= 0 < len (x :: l).
Proof. unfold len. cbn [length]. lia. Qed.

Section Preservation.

Variable P : Track.t -> Prop.

Lemma loaded_next_track (s : Player) :
  loaded P s ->
  loaded P (after next_track s) /\
  position_if_positive (after next_track s) /\
  exists r, outcome next_track s = Returned r.
Proof.
  intros (Hin & Hq & Hts & Hc).
  unfold after, outcome.
  destruct (next_track_cases s Hin)
    as [(t & i & Hm & Hel & Hi & ->) | [(t & q & Hm & Hqs & ->) | (i & ->)]];
    cbn [fst snd].
  - pose proof (proj1 (Forall_forall _ _) Hts) as Hall.
    split; [| split; [| eauto]].
    + unfold loaded, index_in_bounds; cbn. repeat split; try lia; auto.
      * eapply len_pos_nonempty; exact Hi.
      * intros t0 [= <-]. auto.
    + intros t0. cbn. intros [= <-] Hpos. lia.
  - rewrite Hqs in Hq. apply Forall_cons in Hq as [Ht Hq].
    split; [| split; [| eauto]].
    + unfold loaded, index_in_bounds; cbn. repeat split; auto.
      * discriminate.
      * discriminate.
      * intros t0 [= <-]. exact Ht.
    + intros t0. cbn. intros [= <-] Hpos. lia.
  - split; [| split; [| eauto]].
    + unfold loaded, index_in_bounds; cbn. repeat split; auto; discriminate.
    + intros t0. cbn. discriminate.
Qed.

Lemma loaded_with_elapsed (v : Z) (s : Player) :
  loaded P s -> loaded P (with_elapsed v s).
Proof. destruct s. unfold loaded, index_in_bounds. cbn. tauto. Qed.

Lemma loaded_with_is_paused (v : bool) (s : Player) :
  loaded P s -> loaded P (with_is_paused v s).
Proof. destruct s. unfold loaded, index_in_bounds. cbn. tauto. Qed.

Lemma loaded_with_queue (q : list Track.t) (s : Player) :
  loaded P s -> Forall P q -> loaded P (with_queue q s).
Proof. destruct s. unfold loaded, index_in_bounds. cbn. tauto. Qed.

Lemma loaded_tick (s : Player) :
  loaded P s -> position_if_positive s ->
  loaded P (after tick s) /\
  position_if_positive (after tick s) /\
  exists r, outcome tick s = Returned r.
Proof.
  intros Hl Hp. unfold after, outcome.
  destruct (tick_cases s)
    as [-> | [(t & Hc & Hlt & ->) | [(t & Hc & ->) | ->]]]; cbn [fst snd].
  - eauto.
  - split; [apply loaded_with_elapsed; exact Hl | split; [| eauto]].
    intros t0 Hc0 Hpos. specialize (Hp t0).
    destruct s; cbn in *. simplify_eq. specialize (Hp eq_refl Hpos). lia.
  - split; [apply loaded_with_elapsed; exact Hl | split; [| eauto]].
    intros t0 Hc0 Hpos. destruct s; cbn in *. lia.
  - apply loaded_next_track, loaded_with_elapsed, Hl.
Qed.

Lemma loaded_play (s : Player) :
  loaded P s -> position_if_positive s ->
  loaded P (after play s) /\
  position_if_positive (after play s) /\
  exists r, outcome play s = Returned r.
Proof.
  intros Hl Hp. unfold after, outcome.
  destruct (play_cases s) as [(Hc & ->) | (t & Hc & ->)]; cbn [fst snd].
  - apply loaded_next_track, Hl.
  - split; [apply loaded_with_is_paused; exact Hl | split; [| eauto]].
    intros t0. specialize (Hp t0). destruct s; exact Hp.
Qed.

Lemma loaded_remove_from_queue (s : Player) (track_id : Z) :
  loaded P s -> position_if_positive s ->
  loaded P (after (remove_from_queue track_id) s) /\
  position_if_positive (after (remove_from_queue track_id) s) /\
  exists r, outcome (remove_from_queue track_id) s = Returned r.
Proof.
  intros Hl Hp.
  destruct (remove_from_queue_returns s track_id) as (b & q' & Heq & Hq').
  unfold after, outcome. rewrite Heq. cbn [fst snd].
  split; [| split; [| eauto]].
  - apply loaded_with_queue; [exact Hl |]. apply Hq', Hl.
  - intros t0. specialize (Hp t0). destruct s; exact Hp.
Qed.

End Preservation.

(** ** Successful selections *)

Lemma after_discard {A : Type} (m : M A) (s : Player) :
  after (m ;; ret tt) s = after m s.
Proof. unfold after, bind, ret. destruct (m s) as [[r | x] s']; reflexivity. Qed.

Lemma outcome_discard {A : Type} (m : M A) (s : Player) (r : A) :
  outcome m s = Returned r -> outcome (m ;; ret tt) s = Returned tt.
Proof.
  unfold outcome, bind, ret. destruct (m s) as [[r' | x] s']; cbn; congruence.
Qed.

Lemma select_playlist_effect
    (t : Track.t) (rest : list Track.t) (loop : bool) (s : Player) :
  _select_playlist (t :: rest) loop s =
  (Returned (Some t),
   {| queue := []; current := Some t; elapsed := 0; is_paused := false;
      loop_track := loop_track s; loop_playlist := loop;
      playlist_mode := true; playlist_tracks := t :: rest;
      playlist_index := 0 |}).
Proof. reflexivity. Qed.

Section Selections.

Variable db : Database.

Lemma select_track_effect (track_id : Z) (t : Track.t) (s : Player) :
  db_get_track db track_id = Some t ->
  select_track db track_id s =
  (Returned (Some t),
   {| queue := queue s; current := Some t; elapsed := 0; is_paused := false;
      loop_track := false; loop_playlist := false; playlist_mode := false;
      playlist_tracks := playlist_tracks s;
      playlist_index := playlist_index s |}).
Proof. intros H. unfold select_track. rewrite H. reflexivity. Qed.

Lemma add_to_queue_found (track_id : Z) (t : Track.t) (s : Player) :
  db_get_track db track_id = Some t ->
  add_to_queue db track_id s =
  match current s with
  | None => (play ;; ret tt)
  | Some _ => ret tt
  end (with_queue (queue s ++ [t]) s).
Proof.
  intros H. unfold add_to_queue. rewrite H.
  destruct s as [q [c|] e p lt lp m ts i]; reflexivity.
Qed.

Lemma select_playlist_by_id_effect
    (playlist_id : Z) (loop : bool) (p : Playlist.t)
    (t : Track.t) (rest : list Track.t) (s : Player) :
  db_get_playlist db playlist_id = Some p ->
  Playlist.tracks p = t :: rest ->
  select_playlist_by_id db playlist_id loop s =
  (Returned (Some t),
   {| queue := []; current := Some t; elapsed := 0; is_paused := false;
      loop_track := loop_track s; loop_playlist := loop;
      playlist_mode := true; playlist_tracks := t :: rest;
      playlist_index := 0 |}).
Proof.
  intros H Hts. unfold select_playlist_by_id. rewrite H, Hts. reflexivity.
Qed.

Lemma select_playlist_by_name_effect
    (name : string) (loop : bool) (p : Playlist.t)
    (t : Track.t) (rest : list Track.t) (s : Player) :
  db_first_playlist_named db name = Some p ->
  Playlist.tracks p = t :: rest ->
  select_playlist_by_name db name loop s =
  (Returned (Some t),
   {| queue := []; current := Some t; elapsed := 0; is_paused := false;
      loop_track := loop_track s; loop_playlist := loop;
      playlist_mode := true; playlist_tracks := t :: rest;
      playlist_index := 0 |}).
Proof.
  intros H Hts. unfold select_playlist_by_name. rewrite H, Hts. reflexivity.
Qed.

Lemma select_album_by_id_effect
    (album_id : Z) (loop : bool) (a : Album.t)
    (t : Track.t) (rest : list Track.t) (s : Player) :
  db_get_album db album_id = Some a ->
  Album.tracks a = t :: rest ->
  select_album_by_id db album_id loop s =
  (Returned (Some t),
   {| queue := []; current := Some t; elapsed := 0;
      is_paused := is_paused s;
      loop_track := false; loop_playlist := loop;
      playlist_mode := true; playlist_tracks := t :: rest;
      playlist_index := 0 |}).
Proof.
  intros H Hts. unfold select_album_by_id. rewrite H, Hts. reflexivity.
Qed.

(** Each selection either changes nothing or installs a non-empty list. *)
Lemma select_playlist_by_id_cases (playlist_id : Z) (loop : bool) (s : Player) :
  select_playlist_by_id db playlist_id loop s = (Returned None, s) \/
  exists p t rest,
    p ∈ playlists_table db /\ Playlist.tracks p = t :: rest /\
    select_playlist_by_id db playlist_id loop s =
    _select_playlist (t :: rest) loop s.
Proof.
  unfold select_playlist_by_id.
  destruct (db_get_playlist db playlist_id) as [p|] eqn:H; [| left; reflexivity].
  apply find_some in H as [Hin _]. apply list_elem_of_In in Hin.
  destruct (Playlist.tracks p) as [|t rest] eqn:Hts; [left; reflexivity |].
  right. exists p, t, rest. auto.
Qed.

Lemma select_playlist_by_name_cases (name : string) (loop : bool) (s : Player) :
  select_playlist_by_name db name loop s = (Returned None, s) \/
  exists p t rest,
    p ∈ playlists_table db /\ Playlist.tracks p = t :: rest /\
    select_playlist_by_name db name loop s =
    _select_playlist (t :: rest) loop s.
Proof.
  unfold select_playlist_by_name.
  destruct (db_first_playlist_named db name) as [p|] eqn:H;
    [| left; reflexivity].
  apply find_some in H as [Hin _]. apply list_elem_of_In in Hin.
  destruct (Playlist.tracks p) as [|t rest] eqn:Hts; [left; reflexivity |].
  right. exists p, t, rest. auto.
Qed.

Lemma select_album_by_id_cases (album_id : Z) (loop : bool) (s : Player) :
  select_album_by_id db album_id loop s = (Returned None, s) \/
  exists a t rest,
    a ∈ albums_table db /\ Album.tracks a = t :: rest /\
    select_album_by_id db album_id loop s =
    (Returned (Some t),
     {| queue := []; current := Some t; elapsed := 0;
        is_paused := is_paused s;
        loop_track := false; loop_playlist := loop;
        playlist_mode := true; playlist_tracks := t :: rest;
        playlist_index := 0 |}).
Proof.
  destruct (db_get_album db album_id) as [a|] eqn:H.
  - destruct (Album.tracks a) as [|t rest] eqn:Hts.
    + left. unfold select_album_by_id. rewrite H, Hts. reflexivity.
    + right. exists a, t, rest. repeat split; [| exact Hts |].
      * apply find_some in H as [Hin _]. apply list_elem_of_In. exact Hin.
      * eapply select_album_by_id_effect; eassumption.
  - left. unfold select_album_by_id. rewrite H. reflexivity.
Qed.

End Selections.

(** C1 on the code: a playlist selected while [loop_track] is on leaves it on
    ([_select_playlist] never writes [loop_track], [select_album_by_id]
    does), and an album selected while paused stays paused
    ([select_album_by_id] never writes [is_paused], [_select_playlist]
    does). *)
Theorem selection_keeps_stale_flags :
  loop_track
    (run sample_db
       [op_command (cmd_track_select 1);
        op_command (cmd_loop_track true);
        op_command (cmd_playlist_select_id 1 false)] initial) = true /\
  is_paused
    (run sample_db
       [op_command (cmd_track_select 1);
        op_command cmd_pause;
        op_command (cmd_album_select_id 1 false)] initial) = true.
Proof. split; reflexivity. Qed.

(** ** Every call keeps the index in bounds and the position in the track *)

Section Reachable.

Variable db : Database.
Variable P : Track.t -> Prop.
Hypothesis db_P : every_track P db.

Lemma kept_unchanged {A : Type} (m : M A) (r : A) (s : Player) :
  loaded P s -> position_if_positive s ->
  m s = (Returned r, s) -> kept P m s.
Proof.
  intros Hl Hp Heq. unfold kept, after, outcome. rewrite Heq. eauto.
Qed.

Lemma kept_same {A : Type} (m m' : M A) (s s' : Player) :
  m s = m' s' -> kept P m' s' -> kept P m s.
Proof. unfold kept, after, outcome. intros ->. auto. Qed.

(** The pause and the loop flags play no part in the invariant. *)
Lemma kept_flags {A : Type} (m : M A) (r : A) (s : Player)
    (paused lt lp : bool) :
  loaded P s -> position_if_positive s ->
  m s =
  (Returned r,
   with_is_paused paused (with_loop_track lt (with_loop_playlist lp s))) ->
  kept P m s.
Proof.
  intros Hl Hp Heq. unfold kept, after, outcome. rewrite Heq.
  destruct s. split; [exact Hl | split; [exact Hp | eauto]].
Qed.

Lemma kept_discard {A : Type} (m : M A) (s : Player) :
  kept P m s -> kept P (m ;; ret tt) s.
Proof.
  intros (Hl & Hp & r & Hr). unfold kept. rewrite after_discard.
  split; [exact Hl | split; [exact Hp |]].
  exists tt. eapply outcome_discard. exact Hr.
Qed.

Lemma db_track_P (track_id : Z) (t : Track.t) :
  db_get_track db track_id = Some t -> P t.
Proof.
  intros H. apply find_some in H as [Hin _].
  destruct db_P as (Hts & _ & _).
  rewrite Forall_forall in Hts. apply Hts, list_elem_of_In, Hin.
Qed.

Lemma db_playlist_P (p : Playlist.t) :
  p ∈ playlists_table db -> Forall P (Playlist.tracks p).
Proof.
  destruct db_P as (_ & Hps & _).
  rewrite Forall_forall in Hps. apply Hps.
Qed.

Lemma db_album_P (a : Album.t) :
  a ∈ albums_table db -> Forall P (Album.tracks a).
Proof.
  destruct db_P as (_ & _ & Has).
  rewrite Forall_forall in Has. apply Has.
Qed.

(** The state a list selection installs, whatever it keeps of the pause and
    of [loop_track]. *)
Lemma kept_list_installed {A : Type} (m : M A) (r : A) (s : Player)
    (t : Track.t) (rest : list Track.t) (paused lt loop : bool) :
  Forall P (t :: rest) ->
  m s =
  (Returned r,
   {| queue := []; current := Some t; elapsed := 0; is_paused := paused;
      loop_track := lt; loop_playlist := loop; playlist_mode := true;
      playlist_tracks := t :: rest; playlist_index := 0 |}) ->
  kept P m s.
Proof.
  intros Hall Heq. unfold kept, after, outcome. rewrite Heq. cbn [fst snd].
  split; [| split; [| eauto]].
  - unfold loaded, index_in_bounds. cbn.
    split; [intros _; split; [discriminate | apply len_cons_pos] |].
    split; [constructor |]. split; [exact Hall |].
    intros t0 [= <-]. apply Forall_cons in Hall. tauto.
  - intros t0. cbn. intros [= <-] Hpos. lia.
Qed.

Lemma kept_select_track (track_id : Z) (s : Player) :
  loaded P s -> position_if_positive s -> kept P (select_track db track_id) s.
Proof.
  intros Hl Hp.
  destruct (db_get_track db track_id) as [t|] eqn:H.
  - unfold kept, after, outcome.
    rewrite (select_track_effect db track_id t s H). cbn [fst snd].
    destruct Hl as (_ & Hq & Hts & _).
    split; [| split; [| eauto]].
    + unfold loaded, index_in_bounds. cbn.
      repeat split; auto; try discriminate.
      intros t0 [= <-]. eapply db_track_P; exact H.
    + intros t0. cbn. intros [= <-] Hpos. lia.
  - apply kept_unchanged with (r := None); try assumption.
    unfold select_track. rewrite H. reflexivity.
Qed.

Lemma kept_add_to_queue (track_id : Z) (s : Player) :
  loaded P s -> position_if_positive s -> kept P (add_to_queue db track_id) s.
Proof.
  intros Hl Hp.
  destruct (db_get_track db track_id) as [t|] eqn:H.
  - assert (Hl1 : loaded P (with_queue (queue s ++ [t]) s)).
    { apply loaded_with_queue; [exact Hl |].
      apply Forall_app. split; [apply Hl |].
      constructor; [eapply db_track_P; exact H | constructor]. }
    assert (Hp1 : position_if_positive (with_queue (queue s ++ [t]) s)).
    { intros t0. specialize (Hp t0). destruct s; exact Hp. }
    eapply kept_same; [apply add_to_queue_found; exact H |].
    destruct (current s).
    + unfold kept, after, outcome. cbn [fst snd]. eauto.
    + apply kept_discard, loaded_play; assumption.
  - apply kept_unchanged with (r := tt); try assumption.
    unfold add_to_queue. rewrite H. reflexivity.
Qed.

Lemma kept_dispatch (c : command) (s : Player) :
  loaded P s -> position_if_positive s -> kept P (dispatch db c) s.
Proof.
  intros Hl Hp. destruct c; cbn [dispatch].
  - apply kept_discard, loaded_play; assumption.
  - apply kept_flags
      with (r := tt) (paused := match current s with
                      | Some _ => true
                      | None => is_paused s
                      end)
           (lt := loop_track s) (lp := loop_playlist s); try assumption.
    destruct s as [q [t|] e p lt lp m ts i]; reflexivity.
  - unfold kept, after, outcome. rewrite stop_all_spec. cbn [fst snd].
    destruct Hl as (_ & Hq & Hts & _).
    split; [| split; [| eauto]].
    + unfold loaded, index_in_bounds. cbn. repeat split; auto; discriminate.
    + intros t0. cbn. discriminate.
  - apply kept_discard. unfold skip. apply loaded_next_track. exact Hl.
  - apply kept_discard, kept_select_track; assumption.
  - apply kept_add_to_queue; assumption.
  - apply kept_discard, loaded_remove_from_queue; assumption.
  - apply kept_discard.
    destruct (select_playlist_by_id_cases db id loop s)
      as [Heq | (p & t & rest & Hin & Hts & Heq)].
    + eapply kept_unchanged; eassumption.
    + eapply kept_list_installed;
        [| rewrite Heq; apply select_playlist_effect].
      rewrite <- Hts. apply db_playlist_P, Hin.
  - apply kept_discard.
    destruct (select_playlist_by_name_cases db name loop s)
      as [Heq | (p & t & rest & Hin & Hts & Heq)].
    + eapply kept_unchanged; eassumption.
    + eapply kept_list_installed;
        [| rewrite Heq; apply select_playlist_effect].
      rewrite <- Hts. apply db_playlist_P, Hin.
  - apply kept_discard.
    destruct (select_album_by_id_cases db id loop s)
      as [Heq | (a & t & rest & Hin & Hts & Heq)].
    + eapply kept_unchanged; eassumption.
    + eapply kept_list_installed; [| exact Heq].
      rewrite <- Hts. apply db_album_P, Hin.
  - apply kept_flags
      with (r := tt) (paused := is_paused s)
           (lt := match current s with
                  | Some _ => payload
                  | None => loop_track s
                  end)
           (lp := match current s with
                  | Some _ => if payload then false else loop_playlist s
                  | None => loop_playlist s
                  end); try assumption.
    destruct s as [q [t|] e p lt lp m ts i], payload; reflexivity.
  - apply kept_flags
      with (r := tt) (paused := is_paused s) (lt := loop_track s)
           (lp := if playlist_mode s then payload else loop_playlist s);
      try assumption.
    destruct s as [q c e p lt lp [|] ts i]; reflexivity.
Qed.

Lemma kept_perform (o : operation) (s : Player) :
  loaded P s -> position_if_positive s -> kept P (perform db o) s.
Proof.
  intros Hl Hp. destruct o; cbn [perform].
  - apply kept_dispatch; assumption.
  - apply kept_discard, loaded_tick; assumption.
  - unfold kept, after, outcome. cbn.
    split; [apply loaded_initial | split; [apply position_initial | eauto]].
Qed.

Lemma kept_run (ops : list operation) :
  loaded P (run db ops initial) /\
  position_if_positive (run db ops initial).
Proof.
  induction ops as [|o ops [Hl Hp]] using rev_ind.
  - split; [apply loaded_initial | apply position_initial].
  - rewrite run_snoc.
    destruct (kept_perform o _ Hl Hp) as (Hl' & Hp' & _). auto.
Qed.

End Reachable.

Lemma every_track_True (db : Database) : every_track (fun _ => True) db.
Proof.
  unfold every_track.
  repeat split; apply Forall_forall; intros; try apply Forall_forall; auto.
Qed.

(** C10: after any sequence of calls from the initial values, list mode
    implies a non-empty list and an index inside it, and the next call,
    whichever it is, returns without raising; so [next_track] never indexes
    out of the list, and its wrap to index 0 never meets an empty list. *)
Theorem list_index_stays_in_bounds (db : Database) (ops : list operation) :
  let s := run db ops initial in
  (playlist_mode s = true ->
     playlist_tracks s <> [] /\
     0 <= playlist_index s < len (playlist_tracks s)) /\
  (forall o : operation, outcome (perform db o) s = Returned tt) /\
  (exists r, outcome next_track s = Returned r).
Proof.
  intros s.
  destruct (kept_run db _ (every_track_True db) ops) as [Hl Hp].
  fold s in Hl, Hp.
  split; [apply Hl | split].
  - intros o.
    destruct (kept_perform db _ (every_track_True db) o s Hl Hp)
      as (_ & _ & [] & Hr).
    exact Hr.
  - apply (loaded_next_track _ s Hl).
Qed.

(** C5: when every track of the database has a positive duration, after any
    sequence of calls from the initial values the position satisfies
    [0 <= elapsed < current.duration] whenever a track is current. *)
Theorem position_stays_in_track (db : Database) :
  positive_durations db ->
  forall ops : list operation, position_in_track (run db ops initial).
Proof.
  intros Hdb ops t Hc.
  destruct (kept_run db positive Hdb ops) as [(_ & _ & _ & Hpos) Hp].
  apply Hp; [exact Hc |]. apply Hpos. exact Hc.
Qed.

(** ** The loop of a connection *)

Lemma idle_iteration (db : Database) (s : Player) (t : Track.t) :
  current s = Some t -> is_paused s = false ->
  elapsed s + 1 < Track.duration t ->
  iteration db None s = (Returned tt, with_elapsed (elapsed s + 1) s).
Proof.
  destruct s as [q c e p lt lp m ts i]; cbn. intros -> -> Hlt.
  unfold iteration, swallow. unfold_player.
  destruct (Z.ltb_spec (e + 1) (Track.duration t)); [reflexivity | lia].
Qed.

(** Every turn of every connection's loop ticks: [n] turns without a command,
    whichever connections take them, move the position on by [n]. *)
Lemma idle_iterations (db : Database) (n : nat) (s : Player) (t : Track.t) :
  current s = Some t -> is_paused s = false ->
  elapsed s + Z.of_nat n < Track.duration t ->
  Nat.iter n (after (iteration db None)) s
  = with_elapsed (elapsed s + Z.of_nat n) s.
Proof.
  intros Hc Hp. induction n as [|n IH]; intros Hlt.
  - cbn. rewrite Z.add_0_r. destruct s; reflexivity.
  - change (Nat.iter (S n) (after (iteration db None)) s)
      with (after (iteration db None) (Nat.iter n (after (iteration db None)) s)).
    rewrite IH by lia. unfold after.
    rewrite (idle_iteration db _ t);
      [| destruct s; exact Hc | destruct s; exact Hp
       | destruct s; cbn in *; lia].
    destruct s as [q c e p lt lp m ts i]; cbn.
    replace (e + Z.of_nat (S n)) with (e + Z.of_nat n + 1) by lia.
    reflexivity.
Qed.

(** ** Concrete runs *)

(** C2 as stated fails: with [song_a] current in list mode, after
    [set_loop_track(True)] and [set_loop_playlist(True)] the flag [loop_track]
    is set, not cleared. *)
Lemma loop_track_survives_loop_playlist :
  current playing_mix = Some song_a /\
  loop_track
    (after (set_loop_track true ;; set_loop_playlist true) playing_mix) = true.
Proof. split; reflexivity. Qed.

Lemma loop_flags_spec_witness :
  loop_track
    (after (set_loop_track true ;; set_loop_playlist true) playing_mix) = true /\
  set_loop_playlist false looping_mix
  = (Returned tt, with_loop_playlist false looping_mix) /\
  set_loop_playlist true playing_a = (Returned tt, playing_a) /\
  set_loop_track true initial = (Returned tt, initial) /\
  set_loop_track true looping_mix
  = (Returned tt, with_loop_playlist false (with_loop_track true looping_mix)).
Proof.
  split; [| split; [| split; [| split]]].
  - apply (proj1 (loop_flags_spec sample_db playing_mix)).
    vm_compute. discriminate.
  - apply (proj1 (proj2 (proj2 (loop_flags_spec sample_db looping_mix)))).
    reflexivity.
  - apply (proj1 (proj2 (proj2 (proj2 (loop_flags_spec sample_db playing_a))))).
    reflexivity.
  - apply (proj1 (proj2 (proj2 (proj2 (proj2
             (loop_flags_spec sample_db initial)))))).
    reflexivity.
  - apply (proj1 (proj2 (proj2 (proj2 (proj2 (proj2
             (loop_flags_spec sample_db looping_mix))))))).
    vm_compute. discriminate.
Defined.

Lemma tick_spec_witness :
  tick paused_a = (Returned (Some song_a), paused_a) /\
  Nat.iter 5 (after tick) paused_a = paused_a /\
  (play ;; tick) paused_a =
  (Returned (Some song_a), with_elapsed 1 (with_is_paused false paused_a)) /\
  tick playing_a = (Returned (Some song_a), with_elapsed 1 playing_a).
Proof.
  split; [| split; [| split]].
  - apply (proj1 (tick_spec paused_a)). right. reflexivity.
  - apply (proj1 (proj2 (tick_spec paused_a))). reflexivity.
  - apply (proj1 (proj2 (proj2 (tick_spec paused_a))) song_a);
      [reflexivity | reflexivity | vm_compute; reflexivity].
  - apply (proj2 (proj2 (proj2 (tick_spec playing_a))) song_a);
      [reflexivity | reflexivity | vm_compute; reflexivity].
Defined.

Lemma next_track_spec_witness :
  (exists t,
     playlist_tracks playing_mix !! Z.to_nat (playlist_index playing_mix + 1)
     = Some t /\
     next_track playing_mix =
     (Returned (Some t),
      {| queue := []; current := Some t; elapsed := 0; is_paused := false;
         loop_track := false; loop_playlist := false; playlist_mode := true;
         playlist_tracks := [song_a; song_b]; playlist_index := 1 |})) /\
  next_track playing_a =
  (Returned (Some song_b),
   {| queue := []; current := Some song_b; elapsed := 0; is_paused := false;
      loop_track := false; loop_playlist := false; playlist_mode := false;
      playlist_tracks := []; playlist_index := 0 |}).
Proof.
  split.
  - apply (proj1 (proj2 (proj2 (proj2 (proj2 (proj2
             (next_track_spec playing_mix))))))).
    + reflexivity.
    + vm_compute. split; [discriminate | reflexivity].
  - apply (proj2 (proj2 (proj2 (proj2 (proj2 (proj2
             (next_track_spec playing_a))))))).
    + reflexivity.
    + reflexivity.
Defined.

Lemma position_stays_in_track_witness :
  position_in_track
    (run sample_db
       [op_command (cmd_playlist_select_id 1 true); op_tick; op_tick; op_tick]
       initial).
Proof.
  apply (position_stays_in_track sample_db).
  unfold positive_durations, every_track, positive. cbn.
  repeat constructor.
Defined.

Lemma not_found_changes_nothing_witness :
  (add_to_queue sample_db 9 playing_a = (Returned tt, playing_a) /\
   select_track sample_db 9 playing_a = (Returned None, playing_a)) /\
  select_playlist_by_id sample_db 2 true playing_a = (Returned None, playing_a) /\
  select_playlist_by_name sample_db "none" true playing_a
  = (Returned None, playing_a) /\
  select_album_by_id sample_db 9 true playing_a = (Returned None, playing_a).
Proof.
  split; [| split; [| split]].
  - apply (proj1 (not_found_changes_nothing sample_db playing_a)).
    reflexivity.
  - apply (proj1 (proj2 (not_found_changes_nothing sample_db playing_a))).
    right. reflexivity.
  - apply (proj1 (proj2 (proj2 (not_found_changes_nothing sample_db playing_a)))).
    left. reflexivity.
  - apply (proj2 (proj2 (proj2 (not_found_changes_nothing sample_db playing_a)))).
    left. reflexivity.
Defined.

Lemma remove_from_queue_spec_witness :
  remove_from_queue 1 playing_a = (Returned false, playing_a) /\
  remove_from_queue 2 playing_a = (Returned true, with_queue [] playing_a).
Proof.
  split.
  - apply (proj1 (remove_from_queue_spec playing_a 1)).
    constructor; [vm_compute; discriminate | constructor].
  - apply (proj2 (remove_from_queue_spec playing_a 2) [] song_b []).
    + reflexivity.
    + constructor.
    + reflexivity.
Defined.

Lemma stopped_is_clean_witness :
  stopped_clean (after (perform sample_db op_tick) initial) /\
  (let message :=
     send_status
       (run sample_db [op_command (cmd_queue_add 1); op_tick; op_tick] initial)
   in
   status_elapsed message = 0 /\
   status_loop_track message = false /\
   status_loop_playlist message = false).
Proof.
  split.
  - apply (proj1 (proj2 (stopped_is_clean sample_db)) op_tick initial).
    apply (proj1 (stopped_is_clean sample_db)).
  - apply (proj2 (proj2 (stopped_is_clean sample_db))
             [op_command (cmd_queue_add 1); op_tick; op_tick]).
    reflexivity.
Defined.

Lemma list_index_stays_in_bounds_witness :
  playlist_tracks
    (run sample_db [op_command (cmd_album_select_id 1 true); op_tick;
                    op_tick; op_command cmd_skip] initial) <> [] /\
  0 <= playlist_index
         (run sample_db [op_command (cmd_album_select_id 1 true); op_tick;
                         op_tick; op_command cmd_skip] initial)
    < len (playlist_tracks
             (run sample_db [op_command (cmd_album_select_id 1 true); op_tick;
                             op_tick; op_command cmd_skip] initial)).
Proof.
  apply (proj1 (list_index_stays_in_bounds sample_db
                  [op_command (cmd_album_select_id 1 true); op_tick;
                   op_tick; op_command cmd_skip])).
  reflexivity.
Defined.

(** * Further properties of the player and of the endpoint *)

(** ** Selecting a track, queueing, stopping *)

(** X1: [select_track] of a track the database has returns it, and the status
    message then says PLAYING with its title and duration, [elapsed] 0 and
    both loop flags off; the queue, the list and its index are not touched. *)
Theorem select_track_status
    (db : Database) (track_id : Z) (t : Track.t) (s : Player) :
  db_get_track db track_id = Some t ->
  outcome (select_track db track_id) s = Returned (Some t) /\
  send_status (after (select_track db track_id) s) =
  {| status := PLAYING; track := Some (Track.title t); status_elapsed := 0;
     status_duration := Some (Track.duration t);
     status_queue := Track.title <$> queue s;
     status_loop_track := false; status_loop_playlist := false |} /\
  queue (after (select_track db track_id) s) = queue s /\
  playlist_tracks (after (select_track db track_id) s) = playlist_tracks s /\
  playlist_index (after (select_track db track_id) s) = playlist_index s.
Proof.
  intros H. unfold outcome, after.
  rewrite (select_track_effect db track_id t s H). cbn.
  repeat split; reflexivity.
Qed.

Lemma select_track_status_witness :
  send_status (after (select_track sample_db 2) playing_mix) =
  {| status := PLAYING; track := Some "B"; status_elapsed := 0;
     status_duration := Some 3; status_queue := [];
     status_loop_track := false; status_loop_playlist := false |}.
Proof.
  apply (proj1 (proj2 (select_track_status sample_db 2 song_b playing_mix
                         eq_refl))).
Defined.

(** X2: [add_to_queue] of a track the database has appends it to the queue.
    While a track is current nothing else changes.  When nothing plays (queue
    mode) the head of the lengthened queue starts playing at once with
    [elapsed] 0: the new track if the queue was empty, the oldest queued
    track if not. *)
Theorem add_to_queue_spec
    (db : Database) (track_id : Z) (t : Track.t) (s : Player) :
  db_get_track db track_id = Some t ->
  (current s <> None ->
     add_to_queue db track_id s =
     (Returned tt, with_queue (queue s ++ [t]) s)) /\
  (current s = None -> playlist_mode s = false ->
     forall first rest, queue s ++ [t] = first :: rest ->
       add_to_queue db track_id s =
       (Returned tt,
        {| queue := rest; current := Some first; elapsed := 0;
           is_paused := false; loop_track := loop_track s;
           loop_playlist := loop_playlist s; playlist_mode := false;
           playlist_tracks := playlist_tracks s;
           playlist_index := playlist_index s |})).
Proof.
  intros H. rewrite (add_to_queue_found db track_id t s H). split.
  - intros Hc.
    destruct s as [q [c|] e p lt lp m ts i]; cbn in *;
      [reflexivity | destruct Hc; reflexivity].
  - destruct s as [q c e p lt lp m ts i]; cbn. intros -> -> first rest Hq.
    unfold_player. rewrite Hq. reflexivity.
Qed.

Lemma add_to_queue_spec_witness :
  add_to_queue sample_db 1 playing_a =
  (Returned tt, with_queue [song_b; song_a] playing_a) /\
  add_to_queue sample_db 1 stopped_with_b =
  (Returned tt,
   {| queue := [song_a]; current := Some song_b; elapsed := 0;
      is_paused := false; loop_track := false; loop_playlist := false;
      playlist_mode := false; playlist_tracks := []; playlist_index := 0 |}).
Proof.
  split.
  - apply (proj1 (add_to_queue_spec sample_db 1 song_a playing_a eq_refl)).
    vm_compute. discriminate.
  - apply (proj2 (add_to_queue_spec sample_db 1 song_a stopped_with_b eq_refl));
      reflexivity.
Defined.

Lemma db_get_track_id (db : Database) (track_id : Z) (t : Track.t) :
  db_get_track db track_id = Some t -> Track.id t = track_id.
Proof.
  intros H. apply find_some in H as [_ H]. apply Z.eqb_eq. exact H.
Qed.

(** X3: while a track is current, queueing a track whose id is not yet in
    the queue and then removing that id gives back the variables as they
    were; the removal reports [True]. *)
Theorem add_then_remove
    (db : Database) (track_id : Z) (t : Track.t) (s : Player) :
  db_get_track db track_id = Some t ->
  current s <> None ->
  Forall (other_id track_id) (queue s) ->
  (add_to_queue db track_id ;; remove_from_queue track_id) s
  = (Returned true, s).
Proof.
  intros H Hc Hq. unfold bind at 1.
  rewrite (add_to_queue_found db track_id t s H).
  destruct s as [q [c|] e p lt lp m ts i]; [| destruct Hc; reflexivity].
  cbn in *.
  unfold remove_from_queue, bind, gets. cbn.
  rewrite remove_scan_first_match;
    [| exact Hq | eapply db_get_track_id; exact H].
  cbn. rewrite deque_remove_first; [rewrite app_nil_r; reflexivity |].
  eapply Forall_impl; [exact Hq |].
  intros x Hx ->. apply Hx. eapply db_get_track_id; exact H.
Qed.

Lemma add_then_remove_witness :
  (add_to_queue sample_db 1 ;; remove_from_queue 1) playing_a
  = (Returned true, playing_a).
Proof.
  apply (add_then_remove sample_db 1 song_a playing_a).
  - reflexivity.
  - vm_compute. discriminate.
  - constructor; [vm_compute; discriminate | constructor].
Defined.

(** X4: [stop_all] keeps the queue, whatever was playing and in whichever
    mode: [play] after it starts the head of the queue (the stopped track and
    the rest of a list are given up), and stops again with nothing changed
    when the queue is empty. *)
Theorem stop_all_then_play (s : Player) :
  queue (after stop_all s) = queue s /\
  (forall t q, queue s = t :: q ->
     (stop_all ;; play) s =
     (Returned (Some t),
      {| queue := q; current := Some t; elapsed := 0; is_paused := false;
         loop_track := false; loop_playlist := false; playlist_mode := false;
         playlist_tracks := playlist_tracks s;
         playlist_index := playlist_index s |})) /\
  (queue s = [] -> (stop_all ;; play) s = (Returned None, after stop_all s)).
Proof.
  destruct s as [q c e p lt lp m ts i]; player_cbn.
  split; [reflexivity | split].
  - intros t q' ->. unfold_player. reflexivity.
  - intros ->. unfold_player. reflexivity.
Qed.

Lemma stop_all_then_play_witness :
  (stop_all ;; play) playing_mix = (Returned None, after stop_all playing_mix) /\
  (stop_all ;; play) playing_a =
  (Returned (Some song_b),
   {| queue := []; current := Some song_b; elapsed := 0; is_paused := false;
      loop_track := false; loop_playlist := false; playlist_mode := false;
      playlist_tracks := []; playlist_index := 0 |}).
Proof.
  split.
  - apply (proj2 (proj2 (stop_all_then_play playing_mix))). reflexivity.
  - apply (proj1 (proj2 (stop_all_then_play playing_a)) song_b []). reflexivity.
Defined.

(** ** Time passing *)

Lemma iter_after_succ {A : Type} (m : M A) (n : nat) (s : Player) :
  Nat.iter (S n) (after m) s = after m (Nat.iter n (after m) s).
Proof. reflexivity. Qed.

Lemma with_elapsed_same (s : Player) : with_elapsed (elapsed s) s = s.
Proof. destruct s; reflexivity. Qed.

Lemma tick_counts (s : Player) (t : Track.t) :
  current s = Some t -> is_paused s = false ->
  elapsed s + 1 < Track.duration t ->
  tick s = (Returned (Some t), with_elapsed (elapsed s + 1) s).
Proof.
  destruct s as [q c e p lt lp m ts i]; player_cbn. intros -> -> Hlt.
  unfold_player.
  destruct (Z.ltb_spec (e + 1) (Track.duration t)); [reflexivity | lia].
Qed.

Lemma ticks_count (n : nat) (s : Player) (t : Track.t) :
  current s = Some t -> is_paused s = false ->
  elapsed s + Z.of_nat n < Track.duration t ->
  Nat.iter n (after tick) s = with_elapsed (elapsed s + Z.of_nat n) s.
Proof.
  intros Hc Hp. induction n as [|n IH]; intros Hlt.
  - cbn [Nat.iter nat_rect Z.of_nat]. rewrite Z.add_0_r.
    symmetry. apply with_elapsed_same.
  - rewrite iter_after_succ, IH by lia. unfold after.
    rewrite (tick_counts _ t);
      [| destruct s; exact Hc | destruct s; exact Hp
       | destruct s; player_cbn; lia].
    destruct s as [q c e p lt lp m ts i]; player_cbn.
    replace (e + Z.of_nat (S n)) with (e + Z.of_nat n + 1) by lia.
    reflexivity.
Qed.

Lemma next_track_forgets_position (v : Z) (s : Player) :
  next_track (with_elapsed v s) = next_track s.
Proof. destruct s; reflexivity. Qed.

(** X5: while a track plays unpaused, [n] ticks that stay short of its
    duration add [n] to [elapsed] and change nothing else. *)
Theorem ticks_add_to_elapsed (n : nat) (s : Player) (t : Track.t) :
  current s = Some t -> is_paused s = false ->
  elapsed s + Z.of_nat n < Track.duration t ->
  Nat.iter n (after tick) s = with_elapsed (elapsed s + Z.of_nat n) s.
Proof. apply ticks_count. Qed.

Lemma ticks_add_to_elapsed_witness :
  Nat.iter 2 (after tick) (with_current (Some song_b) playing_a)
  = with_elapsed 2 (with_current (Some song_b) playing_a).
Proof.
  apply (ticks_add_to_elapsed 2 (with_current (Some song_b) playing_a) song_b);
    [reflexivity | reflexivity | vm_compute; reflexivity].
Defined.

(** X6: a track playing unpaused outside [loop_track] with [n + 1] seconds
    left is over exactly at tick [n + 1]: the variables are then those
    [next_track] leaves, so the next queued or listed track starts at
    [elapsed] 0, or the player stops. *)
Theorem track_ends_on_time (n : nat) (s : Player) (t : Track.t) :
  current s = Some t -> is_paused s = false -> loop_track s = false ->
  elapsed s + Z.of_nat (S n) = Track.duration t ->
  Nat.iter (S n) (after tick) s = after next_track s.
Proof.
  intros Hc Hp Hl He.
  rewrite iter_after_succ, (ticks_count n s t) by (assumption || lia).
  unfold after at 1.
  rewrite (tick_track_end _ t);
    [| destruct s; exact Hc | destruct s; exact Hp
     | destruct s; player_cbn; lia | destruct s; exact Hl].
  rewrite !next_track_forgets_position. reflexivity.
Qed.

Lemma track_ends_on_time_witness :
  Nat.iter 2 (after tick) playing_a = after next_track playing_a /\
  Nat.iter 2 (after tick) playing_mix = after next_track playing_mix.
Proof.
  split.
  - apply (track_ends_on_time 1 playing_a song_a); reflexivity.
  - apply (track_ends_on_time 1 playing_mix song_a); reflexivity.
Defined.

Lemma tick_under_loop_track (s : Player) :
  loop_track s = true -> exists e, after tick s = with_elapsed e s.
Proof.
  destruct s as [q [t|] e [|] lt lp m ts i]; player_cbn; intros ->;
    try (exists e; reflexivity).
  unfold_player.
  destruct (Z.ltb_spec (e + 1) (Track.duration t));
    [exists (e + 1) | exists 0]; reflexivity.
Qed.

Lemma tick_restarts (s : Player) (t : Track.t) :
  current s = Some t -> is_paused s = false -> loop_track s = true ->
  Track.duration t <= elapsed s + 1 ->
  after tick s = with_elapsed 0 s.
Proof.
  destruct s as [q c e p lt lp m ts i]; player_cbn. intros -> -> -> Hge.
  unfold_player.
  destruct (Z.ltb_spec (e + 1) (Track.duration t)); [lia | reflexivity].
Qed.

(** X7: under [loop_track] ticks change nothing but [elapsed], however many
    there are: the track is never left and the player never stops.  A track
    playing unpaused with [n + 1] seconds left is back at [elapsed] 0 after
    [n + 1] ticks. *)
Theorem loop_track_repeats (s : Player) :
  loop_track s = true ->
  (forall k : nat, exists e, Nat.iter k (after tick) s = with_elapsed e s) /\
  (forall (n : nat) (t : Track.t),
     current s = Some t -> is_paused s = false ->
     elapsed s + Z.of_nat (S n) = Track.duration t ->
     Nat.iter (S n) (after tick) s = with_elapsed 0 s).
Proof.
  intros Hl. split.
  - induction k as [|k [e IH]].
    + exists (elapsed s). symmetry. apply with_elapsed_same.
    + rewrite iter_after_succ, IH.
      destruct (tick_under_loop_track (with_elapsed e s)) as [e' He'].
      * destruct s; exact Hl.
      * exists e'. rewrite He'. destruct s; reflexivity.
  - intros n t Hc Hp He.
    rewrite iter_after_succ, (ticks_count n s t) by (assumption || lia).
    rewrite (tick_restarts _ t);
      [destruct s; reflexivity | destruct s; exact Hc | destruct s; exact Hp
       | destruct s; exact Hl | destruct s; player_cbn; lia].
Qed.

Lemma loop_track_repeats_witness :
  Nat.iter 2 (after tick) looping_a = with_elapsed 0 looping_a.
Proof.
  apply (proj2 (loop_track_repeats looping_a eq_refl) 1%nat song_a);
    reflexivity.
Defined.

(** X8: pausing a playing track, letting any number of ticks go by and
    resuming with [play] gives back the variables exactly as they were
    before the pause. *)
Theorem pause_then_play_restores (n : nat) (s : Player) :
  current s <> None -> is_paused s = false ->
  after play (Nat.iter n (after tick) (after stop s)) = s.
Proof.
  intros Hc Hp.
  rewrite ticks_idle.
  - destruct s as [q [t|] e p lt lp m ts i]; [| destruct Hc; reflexivity].
    player_cbn. subst p. reflexivity.
  - right. destruct s as [q [t|] e p lt lp m ts i];
      [reflexivity | destruct Hc; reflexivity].
Qed.

Lemma pause_then_play_restores_witness :
  after play (Nat.iter 7 (after tick) (after stop playing_mix)) = playing_mix.
Proof.
  apply (pause_then_play_restores 7 playing_mix);
    [vm_compute; discriminate | reflexivity].
Defined.

(** ** Playing through the queue and through a list *)

Lemma iter_after_first {A : Type} (m : M A) (n : nat) (s : Player) :
  Nat.iter (S n) (after m) s = Nat.iter n (after m) (after m s).
Proof.
  induction n as [|n IH]; [reflexivity |].
  rewrite iter_after_succ, IH. reflexivity.
Qed.

Lemma skips_through_queue
    (played : list Track.t) (t : Track.t) (rest : list Track.t) (s : Player) :
  playlist_mode s = false ->
  queue s = played ++ t :: rest ->
  Nat.iter (S (length played)) (after skip) s =
  {| queue := rest; current := Some t; elapsed := 0; is_paused := false;
     loop_track := loop_track s; loop_playlist := loop_playlist s;
     playlist_mode := false; playlist_tracks := playlist_tracks s;
     playlist_index := playlist_index s |}.
Proof.
  revert s. induction played as [|p played IH]; intros s Hm Hq.
  - cbn [length app] in *. unfold Nat.iter, nat_rect, after, skip.
    rewrite (next_track_queue_pop s t rest Hm Hq). reflexivity.
  - cbn [length]. rewrite iter_after_first.
    unfold after at 2, skip at 2.
    rewrite (next_track_queue_pop s p (played ++ t :: rest) Hm Hq).
    cbn [snd]. rewrite IH; reflexivity.
Qed.

(** X9: in queue mode [skip] plays the queue in the order in which it was
    filled: with [k] tracks queued ahead of [t], [k + 1] skips make [t]
    current at [elapsed] 0 and leave the tracks queued behind it; one skip
    more than there are queued tracks stops the player with an empty
    queue. *)
Theorem queue_is_first_in_first_out (s : Player) :
  playlist_mode s = false ->
  (forall played t rest,
     queue s = played ++ t :: rest ->
     Nat.iter (S (length played)) (after skip) s =
     {| queue := rest; current := Some t; elapsed := 0; is_paused := false;
        loop_track := loop_track s; loop_playlist := loop_playlist s;
        playlist_mode := false; playlist_tracks := playlist_tracks s;
        playlist_index := playlist_index s |}) /\
  Nat.iter (S (length (queue s))) (after skip) s =
  {| queue := []; current := None; elapsed := 0; is_paused := false;
     loop_track := false; loop_playlist := false; playlist_mode := false;
     playlist_tracks := playlist_tracks s;
     playlist_index := playlist_index s |}.
Proof.
  intros Hm. split.
  - intros played t rest Hq. apply skips_through_queue; assumption.
  - destruct (decide (queue s = [])) as [Hq | Hq].
    + rewrite Hq. cbn [length]. unfold Nat.iter, nat_rect, after, skip.
      rewrite (next_track_queue_empty s Hm Hq). unfold after.
      rewrite stop_all_spec, Hq. reflexivity.
    + destruct (exists_last Hq) as (q & t & Hqt).
      assert (Hlen : length (queue s) = S (length q))
        by (rewrite Hqt, length_app; cbn [length]; lia).
      rewrite Hlen, iter_after_succ, (skips_through_queue q t [] s Hm Hqt).
      reflexivity.
Qed.

Lemma queue_is_first_in_first_out_witness :
  Nat.iter 1 (after skip) playing_a =
  {| queue := []; current := Some song_b; elapsed := 0; is_paused := false;
     loop_track := false; loop_playlist := false; playlist_mode := false;
     playlist_tracks := []; playlist_index := 0 |} /\
  Nat.iter 2 (after skip) playing_a = initial.
Proof.
  split.
  - apply (proj1 (queue_is_first_in_first_out playing_a eq_refl)
             [] song_b []).
    reflexivity.
  - apply (proj2 (queue_is_first_in_first_out playing_a eq_refl)).
Defined.

Lemma skips_inside_list (k : nat) (s : Player) :
  playlist_mode s = true ->
  0 <= playlist_index s ->
  playlist_index s + Z.of_nat (S k) < len (playlist_tracks s) ->
  exists t,
    playlist_tracks s !! Z.to_nat (playlist_index s + Z.of_nat (S k)) = Some t /\
    Nat.iter (S k) (after skip) s =
    {| queue := queue s; current := Some t; elapsed := 0; is_paused := false;
       loop_track := loop_track s; loop_playlist := loop_playlist s;
       playlist_mode := true; playlist_tracks := playlist_tracks s;
       playlist_index := playlist_index s + Z.of_nat (S k) |}.
Proof.
  intros Hm H0. induction k as [|k IH]; intros Hlt.
  - destruct (next_track_list_step s Hm) as (t & Ht & Heq); [lia |].
    exists t. split; [exact Ht |].
    unfold Nat.iter, nat_rect, after, skip. rewrite Heq. reflexivity.
  - destruct IH as (t0 & _ & Heq0); [lia |].
    rewrite iter_after_succ, Heq0.
    match goal with
    | |- context [after skip ?r] =>
        destruct (next_track_list_step r eq_refl) as (t & Ht & Heq)
    end.
    { player_cbn. lia. }
    player_cbn.
    replace (playlist_index s + Z.of_nat (S k) + 1)
      with (playlist_index s + Z.of_nat (S (S k))) in * by lia.
    exists t. split; [exact Ht |].
    unfold after, skip. rewrite Heq. reflexivity.
Qed.

(** X10: a list without [loop_playlist] is played to its end and no
    further: from an index inside the list, [k] skips that stay inside the
    list make the entry [k] places on current at [elapsed] 0, and the skip
    past the last entry stops the player and leaves list mode.  The queue
    is not consulted on the way and is still there afterwards. *)
Theorem list_plays_to_its_end (s : Player) :
  playlist_mode s = true -> loop_playlist s = false ->
  0 <= playlist_index s ->
  (forall k : nat,
     playlist_index s + Z.of_nat (S k) < len (playlist_tracks s) ->
     exists t,
       playlist_tracks s !! Z.to_nat (playlist_index s + Z.of_nat (S k))
       = Some t /\
       Nat.iter (S k) (after skip) s =
       {| queue := queue s; current := Some t; elapsed := 0;
          is_paused := false; loop_track := loop_track s;
          loop_playlist := false; playlist_mode := true;
          playlist_tracks := playlist_tracks s;
          playlist_index := playlist_index s + Z.of_nat (S k) |}) /\
  (forall k : nat,
     playlist_index s + Z.of_nat (S k) = len (playlist_tracks s) ->
     Nat.iter (S k) (after skip) s =
     {| queue := queue s; current := None; elapsed := 0; is_paused := false;
        loop_track := false; loop_playlist := false; playlist_mode := false;
        playlist_tracks := playlist_tracks s;
        playlist_index := len (playlist_tracks s) |}).
Proof.
  intros Hm Hl H0. split.
  - intros k Hlt.
    destruct (skips_inside_list k s Hm H0 Hlt) as (t & Ht & Heq).
    exists t. split; [exact Ht |]. rewrite Heq, Hl. reflexivity.
  - intros [|k] He.
    + unfold Nat.iter, nat_rect, after, skip.
      rewrite (next_track_list_end s Hm) by (assumption || lia).
      unfold after. rewrite stop_all_spec. player_cbn. cbn [snd].
      destruct s as [q c e p lt lp m ts i]; player_cbn.
      replace (len ts) with (i + 1) by lia. reflexivity.
    + destruct (skips_inside_list k s Hm H0) as (t & _ & Heq); [lia |].
      rewrite iter_after_succ, Heq. unfold after, skip.
      rewrite next_track_list_end; [| reflexivity | player_cbn; lia | exact Hl].
      unfold after. rewrite stop_all_spec. player_cbn. cbn [snd].
      replace (len (playlist_tracks s))
        with (playlist_index s + Z.of_nat (S k) + 1) by lia.
      reflexivity.
Qed.

Lemma list_plays_to_its_end_witness :
  Nat.iter 2 (after skip) playing_mix =
  {| queue := []; current := None; elapsed := 0; is_paused := false;
     loop_track := false; loop_playlist := false; playlist_mode := false;
     playlist_tracks := [song_a; song_b]; playlist_index := 2 |}.
Proof.
  apply (proj2 (list_plays_to_its_end playing_mix eq_refl eq_refl
                  ltac:(vm_compute; discriminate)) 1%nat).
  reflexivity.
Defined.

Lemma skip_in_loop (s : Player) :
  playlist_mode s = true -> loop_playlist s = true ->
  0 <= playlist_index s < len (playlist_tracks s) ->
  exists t,
    playlist_tracks s
      !! Z.to_nat ((playlist_index s + 1) mod len (playlist_tracks s))
    = Some t /\
    next_track s =
    (Returned (Some t),
     {| queue := queue s; current := Some t; elapsed := 0; is_paused := false;
        loop_track := loop_track s; loop_playlist := true;
        playlist_mode := true; playlist_tracks := playlist_tracks s;
        playlist_index :=
          (playlist_index s + 1) mod len (playlist_tracks s) |}).
Proof.
  intros Hm Hl Hi.
  destruct (Z.lt_ge_cases (playlist_index s + 1) (len (playlist_tracks s)))
    as [Hlt | Hge].
  - rewrite Z.mod_small by lia.
    destruct (next_track_list_step s Hm) as (t & Ht & Heq); [lia |].
    exists t. split; [exact Ht |]. rewrite Heq, Hl. reflexivity.
  - replace (playlist_index s + 1) with (len (playlist_tracks s)) by lia.
    rewrite Z_mod_same_full.
    destruct (next_track_list_wrap s Hm) as [_ Heq]; [lia | exact Hl |].
    destruct (playlist_tracks s) as [|t ts] eqn:Hts.
    + unfold len in Hi. cbn in Hi. lia.
    + exists t. split; [reflexivity |]. apply Heq. reflexivity.
Qed.

Lemma skips_in_loop (k : nat) (s : Player) :
  playlist_mode s = true -> loop_playlist s = true ->
  0 <= playlist_index s < len (playlist_tracks s) ->
  exists t,
    playlist_tracks s
      !! Z.to_nat ((playlist_index s + Z.of_nat (S k))
                   mod len (playlist_tracks s))
    = Some t /\
    Nat.iter (S k) (after skip) s =
    {| queue := queue s; current := Some t; elapsed := 0; is_paused := false;
       loop_track := loop_track s; loop_playlist := true;
       playlist_mode := true; playlist_tracks := playlist_tracks s;
       playlist_index :=
         (playlist_index s + Z.of_nat (S k)) mod len (playlist_tracks s) |}.
Proof.
  intros Hm Hl Hi. induction k as [|k (t0 & _ & Heq0)].
  - destruct (skip_in_loop s Hm Hl Hi) as (t & Ht & Heq).
    exists t. split; [exact Ht |].
    unfold Nat.iter, nat_rect, after, skip. rewrite Heq. reflexivity.
  - rewrite iter_after_succ, Heq0.
    match goal with
    | |- context [after skip ?r] =>
        destruct (skip_in_loop r eq_refl eq_refl) as (t & Ht & Heq)
    end.
    { player_cbn. apply Z.mod_pos_bound. lia. }
    player_cbn.
    rewrite Zplus_mod_idemp_l in Ht, Heq.
    replace (playlist_index s + Z.of_nat (S k) + 1)
      with (playlist_index s + Z.of_nat (S (S k))) in * by lia.
    exists t. split; [exact Ht |].
    unfold after, skip. rewrite Heq. reflexivity.
Qed.

(** X11: under [loop_playlist] a list goes round for ever: from an index
    inside the list, after [k] skips ([k] at least 1) the index is the old
    one plus [k], modulo the length of the list, the entry there is current
    at [elapsed] 0 and the player has not stopped; so as many skips as the
    list has entries lead back to the entry the round began with. *)
Theorem list_loops_round (s : Player) :
  playlist_mode s = true -> loop_playlist s = true ->
  0 <= playlist_index s < len (playlist_tracks s) ->
  (forall k : nat,
     exists t,
       playlist_tracks s
         !! Z.to_nat ((playlist_index s + Z.of_nat (S k))
                      mod len (playlist_tracks s))
       = Some t /\
       Nat.iter (S k) (after skip) s =
       {| queue := queue s; current := Some t; elapsed := 0;
          is_paused := false; loop_track := loop_track s;
          loop_playlist := true; playlist_mode := true;
          playlist_tracks := playlist_tracks s;
          playlist_index :=
            (playlist_index s + Z.of_nat (S k))
            mod len (playlist_tracks s) |}) /\
  (let s' := Nat.iter (length (playlist_tracks s)) (after skip) s in
   playlist_index s' = playlist_index s /\
   current s' = playlist_tracks s !! Z.to_nat (playlist_index s)).
Proof.
  intros Hm Hl Hi. split.
  - intros k. apply skips_in_loop; assumption.
  - destruct (length (playlist_tracks s)) as [|n] eqn:Hn.
    + unfold len in Hi. rewrite Hn in Hi. cbn in Hi. lia.
    + destruct (skips_in_loop n s Hm Hl Hi) as (t & Ht & Heq).
      assert (Hround : (playlist_index s + Z.of_nat (S n))
                       mod len (playlist_tracks s) = playlist_index s).
      { unfold len. rewrite Hn.
        rewrite <- (Z.mul_1_l (Z.of_nat (S n))) at 1.
        rewrite Z_mod_plus_full. apply Z.mod_small.
        unfold len in Hi. rewrite Hn in Hi. exact Hi. }
      cbv zeta. rewrite Heq. player_cbn.
      rewrite Hround in *. split; [reflexivity | symmetry; exact Ht].
Qed.

Lemma list_loops_round_witness :
  playlist_index (Nat.iter 2 (after skip) looping_mix) = 0 /\
  current (Nat.iter 2 (after skip) looping_mix) = Some song_a.
Proof.
  apply (proj2 (list_loops_round looping_mix eq_refl eq_refl
                  ltac:(vm_compute; split; [discriminate | reflexivity]))).
Defined.

(** ** Selecting a list *)

(** X12: a playlist found with a first track [t], by id or by name, is
    installed with [t] current at [elapsed] 0, index 0, the queue emptied,
    the pause cleared and [loop_playlist] as asked, and with [loop_track] as
    it was; an album found with a first track is installed the same way but
    with [loop_track] cleared and the pause as it was. *)
Theorem selection_installs_list
    (db : Database) (loop : bool) (t : Track.t) (rest : list Track.t)
    (s : Player) :
  (forall playlist_id p,
     db_get_playlist db playlist_id = Some p ->
     Playlist.tracks p = t :: rest ->
     select_playlist_by_id db playlist_id loop s =
     (Returned (Some t),
      {| queue := []; current := Some t; elapsed := 0; is_paused := false;
         loop_track := loop_track s; loop_playlist := loop;
         playlist_mode := true; playlist_tracks := t :: rest;
         playlist_index := 0 |})) /\
  (forall name p,
     db_first_playlist_named db name = Some p ->
     Playlist.tracks p = t :: rest ->
     select_playlist_by_name db name loop s =
     (Returned (Some t),
      {| queue := []; current := Some t; elapsed := 0; is_paused := false;
         loop_track := loop_track s; loop_playlist := loop;
         playlist_mode := true; playlist_tracks := t :: rest;
         playlist_index := 0 |})) /\
  (forall album_id a,
     db_get_album db album_id = Some a ->
     Album.tracks a = t :: rest ->
     select_album_by_id db album_id loop s =
     (Returned (Some t),
      {| queue := []; current := Some t; elapsed := 0;
         is_paused := is_paused s;
         loop_track := false; loop_playlist := loop;
         playlist_mode := true; playlist_tracks := t :: rest;
         playlist_index := 0 |})).
Proof.
  split; [| split].
  - intros playlist_id p. apply select_playlist_by_id_effect.
  - intros name p. apply select_playlist_by_name_effect.
  - intros album_id a. apply select_album_by_id_effect.
Qed.

Lemma selection_installs_list_witness :
  select_playlist_by_name sample_db "mix" true paused_a =
  (Returned (Some song_a),
   {| queue := []; current := Some song_a; elapsed := 0; is_paused := false;
      loop_track := false; loop_playlist := true; playlist_mode := true;
      playlist_tracks := [song_a; song_b]; playlist_index := 0 |}) /\
  select_album_by_id sample_db 1 false paused_a =
  (Returned (Some song_a),
   {| queue := []; current := Some song_a; elapsed := 0; is_paused := true;
      loop_track := false; loop_playlist := false; playlist_mode := true;
      playlist_tracks := [song_a; song_b]; playlist_index := 0 |}).
Proof.
  split.
  - apply (proj1 (proj2 (selection_installs_list sample_db true song_a
                           [song_b] paused_a))
             "mix" (Playlist.mk 1 "mix" 1 [song_a; song_b]));
      reflexivity.
  - apply (proj2 (proj2 (selection_installs_list sample_db false song_a
                           [song_b] paused_a))
             1 (Album.mk 1 "album" 1 [song_a; song_b]));
      reflexivity.
Defined.

(** ** More that every call keeps *)

Ltac break_loops :=
  repeat match goal with
         | s : Player |- _ => destruct s
         end;
  unfold loop_playlist_in_list_mode in *; unfold_player;
  unfold subscript, raise, ret in *;
  cbn [truthy negb Playlist.tracks Album.tracks] in *;
  rewrite ?getitem_head in *;
  repeat (case_match; player_cbn; simplify_eq);
  player_cbn; intros;
  repeat match goal with
         | H : ?a = ?b -> _, H' : ?a = ?b |- _ => specialize (H H')
         | H : ?a = ?a -> _ |- _ => specialize (H eq_refl)
         end;
  congruence.

Lemma loops_after_discard {A : Type} (m : M A) (s : Player) :
  loop_playlist_in_list_mode (after m s) ->
  loop_playlist_in_list_mode (after (m ;; ret tt) s).
Proof. rewrite after_discard. auto. Qed.

Lemma loops_next_track (s : Player) :
  loop_playlist_in_list_mode s ->
  loop_playlist_in_list_mode (after next_track s).
Proof. break_loops. Qed.

Lemma loops_play (s : Player) :
  loop_playlist_in_list_mode s -> loop_playlist_in_list_mode (after play s).
Proof. break_loops. Qed.

Lemma loops_tick (s : Player) :
  loop_playlist_in_list_mode s -> loop_playlist_in_list_mode (after tick s).
Proof. break_loops. Qed.

Lemma loops_remove_from_queue (s : Player) (track_id : Z) :
  loop_playlist_in_list_mode s ->
  loop_playlist_in_list_mode (after (remove_from_queue track_id) s).
Proof.
  intros H.
  destruct (remove_from_queue_returns s track_id) as (b & q' & Heq & _).
  unfold after. rewrite Heq. destruct s; exact H.
Qed.

Lemma loops_perform (db : Database) (o : operation) (s : Player) :
  loop_playlist_in_list_mode s ->
  loop_playlist_in_list_mode (after (perform db o) s).
Proof.
  destruct o as [c | |]; cbn [perform].
  - destruct c as [ | | | | id | track_id | id | id loop | name loop
                  | id loop | payload | payload]; cbn [dispatch].
    + intros H. apply loops_after_discard, loops_play, H.
    + break_loops.
    + break_loops.
    + intros H. apply loops_after_discard, loops_next_track, H.
    + unfold_selection. break_loops.
    + intros H. unfold after.
      destruct (db_get_track db track_id) as [t|] eqn:Ht.
      * rewrite (add_to_queue_found db track_id t s Ht).
        destruct (current s).
        -- destruct s; exact H.
        -- apply loops_after_discard, loops_play. destruct s; exact H.
      * unfold add_to_queue. rewrite Ht. exact H.
    + intros H. apply loops_after_discard, loops_remove_from_queue, H.
    + unfold_selection.
      destruct (db_get_playlist db id) as [[pk nm ow [|t ts]]|]; break_loops.
    + unfold_selection.
      destruct (db_first_playlist_named db name) as [[pk nm ow [|t ts]]|];
        break_loops.
    + unfold_selection.
      destruct (db_get_album db id) as [[pk nm ar [|t ts]]|]; break_loops.
    + break_loops.
    + destruct s as [q c e p lt lp [|] ts i]; break_loops.
  - intros H. apply loops_after_discard, loops_tick, H.
  - break_loops.
Qed.

(** X13: [loop_playlist] is on only in list mode: this holds of the initial
    values, every call into the player keeps it from any state that has it,
    and so it holds after any sequence of calls. *)
Theorem loop_playlist_needs_list_mode (db : Database) :
  loop_playlist_in_list_mode initial /\
  (forall (o : operation) (s : Player),
     loop_playlist_in_list_mode s ->
     loop_playlist_in_list_mode (after (perform db o) s)) /\
  (forall ops : list operation,
     loop_playlist (run db ops initial) = true ->
     playlist_mode (run db ops initial) = true).
Proof.
  split; [intros H; discriminate H |].
  split; [apply loops_perform |].
  induction ops as [|o ops IH] using rev_ind.
  - intros H. discriminate H.
  - rewrite run_snoc. apply loops_perform. exact IH.
Qed.

Lemma loop_playlist_needs_list_mode_witness :
  loop_playlist_in_list_mode
    (after (perform sample_db (op_command (cmd_track_select 1))) looping_mix).
Proof.
  apply (proj1 (proj2 (loop_playlist_needs_list_mode sample_db))).
  intros _. reflexivity.
Defined.

Lemma entry_same_list (s s' : Player) :
  playlist_mode s' = playlist_mode s -> current s' = current s ->
  playlist_tracks s' = playlist_tracks s ->
  playlist_index s' = playlist_index s ->
  current_is_entry s -> current_is_entry s'.
Proof.
  unfold current_is_entry. intros -> -> -> ->. auto.
Qed.

Lemma entry_queue_mode (s : Player) :
  playlist_mode s = false -> current_is_entry s.
Proof. unfold current_is_entry. intros ->. discriminate. Qed.

Lemma entry_next_track (s : Player) :
  index_in_bounds s -> current_is_entry (after next_track s).
Proof.
  intros Hin. unfold after.
  destruct (playlist_mode s) eqn:Hm.
  - destruct (Hin Hm) as [_ Hi].
    destruct (loop_playlist s) eqn:Hl.
    + destruct (skip_in_loop s Hm Hl Hi) as (t & Ht & ->).
      intros _. exists t. split; [reflexivity | exact Ht].
    + destruct (Z.lt_ge_cases (playlist_index s + 1) (len (playlist_tracks s)))
        as [Hlt | Hge].
      * destruct (next_track_list_step s Hm) as (t & Ht & ->); [lia |].
        intros _. exists t. split; [reflexivity | exact Ht].
      * rewrite (next_track_list_end s Hm Hge Hl).
        apply entry_queue_mode. reflexivity.
  - destruct (next_track_cases s Hin)
      as [(t & i & Hm' & _) | [(t & q & _ & _ & ->) | (i & ->)]];
      [congruence | |]; apply entry_queue_mode; reflexivity.
Qed.

Lemma entry_play (s : Player) :
  index_in_bounds s -> current_is_entry s -> current_is_entry (after play s).
Proof.
  intros Hin He. unfold after.
  destruct (play_cases s) as [(_ & ->) | (t & _ & ->)].
  - apply entry_next_track, Hin.
  - revert He. apply entry_same_list; destruct s; reflexivity.
Qed.

Lemma entry_tick (s : Player) :
  index_in_bounds s -> current_is_entry s -> current_is_entry (after tick s).
Proof.
  intros Hin He. unfold after.
  destruct (tick_cases s) as [-> | [(t & _ & _ & ->) | [(t & _ & ->) | ->]]].
  - exact He.
  - revert He. apply entry_same_list; destruct s; reflexivity.
  - revert He. apply entry_same_list; destruct s; reflexivity.
  - rewrite next_track_forgets_position. apply entry_next_track, Hin.
Qed.

Lemma entry_flags {A : Type} (m : M A) (r : A) (s : Player)
    (paused lt lp : bool) :
  m s =
  (Returned r,
   with_is_paused paused (with_loop_track lt (with_loop_playlist lp s))) ->
  current_is_entry s -> current_is_entry (after m s).
Proof.
  intros Heq. unfold after. rewrite Heq.
  apply entry_same_list; destruct s; reflexivity.
Qed.

Lemma entry_installed
    (t : Track.t) (rest q : list Track.t) (e : Z) (paused lt lp : bool) :
  current_is_entry
    {| queue := q; current := Some t; elapsed := e; is_paused := paused;
       loop_track := lt; loop_playlist := lp; playlist_mode := true;
       playlist_tracks := t :: rest; playlist_index := 0 |}.
Proof. intros _. exists t. split; reflexivity. Qed.

Lemma index_in_bounds_with_queue (q : list Track.t) (s : Player) :
  index_in_bounds s -> index_in_bounds (with_queue q s).
Proof. destruct s; auto. Qed.

Lemma entry_perform (db : Database) (o : operation) (s : Player) :
  index_in_bounds s -> current_is_entry s ->
  current_is_entry (after (perform db o) s).
Proof.
  intros Hin He. destruct o as [c | |]; cbn [perform].
  - destruct c as [ | | | | id | track_id | id | id loop | name loop
                  | id loop | payload | payload]; cbn [dispatch].
    + rewrite after_discard. apply entry_play; assumption.
    + apply entry_flags
        with (r := tt) (paused := match current s with
                                  | Some _ => true
                                  | None => is_paused s
                                  end)
             (lt := loop_track s) (lp := loop_playlist s); [| exact He].
      destruct s as [q [t|] e p lt lp m ts i]; reflexivity.
    + apply entry_queue_mode. reflexivity.
    + rewrite after_discard. apply entry_next_track, Hin.
    + rewrite after_discard. unfold after.
      destruct (db_get_track db id) as [t|] eqn:Ht.
      * rewrite (select_track_effect db id t s Ht).
        apply entry_queue_mode. reflexivity.
      * unfold select_track. rewrite Ht. exact He.
    + unfold after.
      destruct (db_get_track db track_id) as [t|] eqn:Ht.
      * rewrite (add_to_queue_found db track_id t s Ht).
        assert (He1 : current_is_entry (with_queue (queue s ++ [t]) s))
          by (revert He; apply entry_same_list; destruct s; reflexivity).
        destruct (current s).
        -- exact He1.
        -- fold (after (play ;; ret tt) (with_queue (queue s ++ [t]) s)).
           rewrite after_discard.
           apply entry_play; [apply index_in_bounds_with_queue, Hin | exact He1].
      * unfold add_to_queue. rewrite Ht. exact He.
    + rewrite after_discard.
      destruct (remove_from_queue_returns s id) as (b & q' & Heq & _).
      unfold after. rewrite Heq. revert He.
      apply entry_same_list; destruct s; reflexivity.
    + rewrite after_discard. unfold after.
      destruct (select_playlist_by_id_cases db id loop s)
        as [-> | (p & t & rest & _ & _ & ->)]; [exact He |].
      rewrite select_playlist_effect. apply entry_installed.
    + rewrite after_discard. unfold after.
      destruct (select_playlist_by_name_cases db name loop s)
        as [-> | (p & t & rest & _ & _ & ->)]; [exact He |].
      rewrite select_playlist_effect. apply entry_installed.
    + rewrite after_discard. unfold after.
      destruct (select_album_by_id_cases db id loop s)
        as [-> | (a & t & rest & _ & _ & ->)]; [exact He |].
      apply entry_installed.
    + apply entry_flags
        with (r := tt) (paused := is_paused s)
             (lt := match current s with
                    | Some _ => payload
                    | None => loop_track s
                    end)
             (lp := match current s with
                    | Some _ => if payload then false else loop_playlist s
                    | None => loop_playlist s
                    end); [| exact He].
      destruct s as [q [t|] e p lt lp m ts i], payload; reflexivity.
    + apply entry_flags
        with (r := tt) (paused := is_paused s) (lt := loop_track s)
             (lp := if playlist_mode s then payload else loop_playlist s);
        [| exact He].
      destruct s as [q c e p lt lp [|] ts i]; reflexivity.
  - rewrite after_discard. apply entry_tick; assumption.
  - apply entry_queue_mode. reflexivity.
Qed.

(** X14: after any sequence of calls from the initial values, in list mode
    a track is current and it is the entry of the list at the index: what
    plays and what the index says never drift apart. *)
Theorem list_mode_plays_the_indexed_entry
    (db : Database) (ops : list operation) :
  playlist_mode (run db ops initial) = true ->
  exists t,
    current (run db ops initial) = Some t /\
    playlist_tracks (run db ops initial)
      !! Z.to_nat (playlist_index (run db ops initial)) = Some t.
Proof.
  change (current_is_entry (run db ops initial)).
  induction ops as [|o ops IH] using rev_ind.
  - apply entry_queue_mode. reflexivity.
  - rewrite run_snoc. apply entry_perform; [| exact IH].
    apply (kept_run db _ (every_track_True db) ops).
Qed.

Lemma list_mode_plays_the_indexed_entry_witness :
  exists t,
    current (run sample_db [op_command (cmd_playlist_select_id 1 true);
                            op_command cmd_skip; op_tick] initial) = Some t /\
    playlist_tracks (run sample_db [op_command (cmd_playlist_select_id 1 true);
                                    op_command cmd_skip; op_tick] initial)
      !! Z.to_nat
           (playlist_index
              (run sample_db [op_command (cmd_playlist_select_id 1 true);
                              op_command cmd_skip; op_tick] initial))
    = Some t.
Proof.
  apply (list_mode_plays_the_indexed_entry sample_db
           [op_command (cmd_playlist_select_id 1 true);
            op_command cmd_skip; op_tick]).
  reflexivity.
Defined.

(** ** What the clients are told *)

(** X15: when every track of the database has a positive duration, every
    status message built after any sequence of calls is consistent: STOPPED
    comes with no track, no duration and [elapsed] 0; PLAYING and PAUSED
    come with a title, a duration, and [elapsed] at least 0 and below that
    duration. *)
Theorem status_is_consistent (db : Database) :
  positive_durations db ->
  forall ops : list operation,
    let message := send_status (run db ops initial) in
    match status message with
    | STOPPED =>
        track message = None /\ status_duration message = None /\
        status_elapsed message = 0
    | _ =>
        exists title d,
          track message = Some title /\ status_duration message = Some d /\
          0 <= status_elapsed message < d
    end.
Proof.
  intros Hdb ops.
  destruct (kept_run db positive Hdb ops) as [(_ & _ & _ & Hpos) Hp].
  pose proof (stopped_clean_run db ops) as Hclean.
  unfold send_status. cbn.
  destruct (current (run db ops initial)) as [t|] eqn:Hc.
  - assert (0 <= elapsed (run db ops initial) < Track.duration t)
      by (apply Hp; [exact Hc | apply Hpos; reflexivity]).
    destruct (is_paused (run db ops initial));
      exists (Track.title t), (Track.duration t); auto.
  - destruct (Hclean Hc) as (He & _). auto.
Qed.

Lemma status_is_consistent_witness :
  exists title d,
    track (send_status (run sample_db [op_command (cmd_queue_add 2); op_tick;
                                       op_command cmd_pause] initial))
    = Some title /\
    status_duration
      (send_status (run sample_db [op_command (cmd_queue_add 2); op_tick;
                                   op_command cmd_pause] initial)) = Some d /\
    0 <= status_elapsed
           (send_status (run sample_db [op_command (cmd_queue_add 2); op_tick;
                                        op_command cmd_pause] initial)) < d.
Proof.
  assert (Hdb : positive_durations sample_db)
    by (unfold positive_durations, every_track, positive; cbn;
        repeat constructor).
  pose proof (status_is_consistent sample_db Hdb
                [op_command (cmd_queue_add 2); op_tick; op_command cmd_pause])
    as W.
  vm_compute in W. vm_compute. exact W.
Defined.

(** ** The turns of the connections *)

Lemma run_app (db : Database) (ops ops' : list operation) (s : Player) :
  run db (ops ++ ops') s = run db ops' (run db ops s).
Proof. unfold run. apply fold_left_app. Qed.

Lemma iteration_as_run (db : Database) (received : option command)
    (s : Player) :
  after (iteration db received) s = run db (turn_calls received) s.
Proof.
  unfold iteration, swallow, after, bind, ret, run.
  destruct received as [c|]; cbn [turn_calls fold_left perform].
  - unfold after, bind, ret.
    destruct (dispatch db c s) as [[[]|x] s']; cbn [snd];
      destruct (tick s') as [[r|x'] s'']; reflexivity.
  - unfold after, bind, ret.
    destruct (tick s) as [[r|x'] s'']; reflexivity.
Qed.

Lemma session_as_run (db : Database) (turns : list (option command))
    (s : Player) :
  session db turns s = run db (concat (map turn_calls turns)) s.
Proof.
  revert s. induction turns as [|received turns IH]; intros s; [reflexivity |].
  cbn [map concat]. rewrite run_app, <- iteration_as_run. apply IH.
Qed.

(** X16: the turns of the connections' loops, however many connections
    there are and however their turns interleave, never meet an [IndexError]
    or [ValueError] of the player: after any turns from the initial values
    the next command is handled without raising, and so is the [tick] that
    follows it outside the [try], where an exception would end the
    connection's loop. *)
Theorem turns_never_raise
    (db : Database) (turns : list (option command)) :
  (forall c : command,
     outcome (dispatch db c) (session db turns initial) = Returned tt) /\
  (forall received : option command,
     outcome (iteration db received) (session db turns initial) = Returned tt /\
     exists r,
       outcome tick
         (after (swallow (match received with
                          | Some c => dispatch db c
                          | None => ret tt
                          end)) (session db turns initial))
       = Returned r).
Proof.
  rewrite session_as_run.
  destruct (kept_run db _ (every_track_True db) (concat (map turn_calls turns)))
    as [Hl Hp].
  set (s := run db (concat (map turn_calls turns)) initial) in *.
  assert (Hcmd : forall c, kept (fun _ => True) (dispatch db c) s)
    by (intros c; apply (kept_dispatch db _ (every_track_True db)); assumption).
  split.
  - intros c. destruct (Hcmd c) as (_ & _ & [] & Hr). exact Hr.
  - intros received.
    assert (Hmid :
      exists s',
        swallow (match received with
                 | Some c => dispatch db c
                 | None => ret tt
                 end) s = (Returned tt, s') /\
        loaded (fun _ => True) s' /\ position_if_positive s').
    { destruct received as [c|].
      - destruct (Hcmd c) as (Hl' & Hp' & _). unfold after in Hl', Hp'.
        unfold swallow.
        destruct (dispatch db c s) as [[[]|x] s']; cbn [snd] in *; eauto.
      - exists s. unfold swallow, ret. auto. }
    destruct Hmid as (s' & Heq & Hl' & Hp').
    destruct (loaded_tick _ s' Hl' Hp') as (_ & _ & r & Hr).
    unfold after at 1. rewrite Heq. cbn [snd]. split; [| eauto].
    unfold iteration, outcome, bind. rewrite Heq.
    unfold outcome in Hr. destruct (tick s') as [[r'|x] s'']; cbn in *;
      [reflexivity | discriminate].
Qed.

(** X17: a turn that receives [queue_add] for a track the database has,
    while nothing plays and nothing is queued, reports that track as
    PLAYING with [elapsed] already 1 when its duration is above 1 (the
    turn's own [tick] has counted); a track of duration 1 or less is over
    within the same turn and the status says STOPPED. *)
Theorem queue_add_turn
    (db : Database) (track_id : Z) (t : Track.t) (s : Player) :
  db_get_track db track_id = Some t ->
  current s = None -> playlist_mode s = false -> loop_track s = false ->
  queue s = [] ->
  (1 < Track.duration t ->
     send_status (after (iteration db (Some (cmd_queue_add track_id))) s) =
     {| status := PLAYING; track := Some (Track.title t); status_elapsed := 1;
        status_duration := Some (Track.duration t); status_queue := [];
        status_loop_track := false;
        status_loop_playlist := loop_playlist s |}) /\
  (Track.duration t <= 1 ->
     send_status (after (iteration db (Some (cmd_queue_add track_id))) s) =
     {| status := STOPPED; track := None; status_elapsed := 0;
        status_duration := None; status_queue := [];
        status_loop_track := false; status_loop_playlist := false |}).
Proof.
  intros H Hc Hm Hl Hq.
  rewrite iteration_as_run. unfold run. cbn [turn_calls fold_left perform dispatch].
  rewrite after_discard.
  assert (Hadd :
    after (add_to_queue db track_id) s =
    {| queue := []; current := Some t; elapsed := 0; is_paused := false;
       loop_track := false; loop_playlist := loop_playlist s;
       playlist_mode := false; playlist_tracks := playlist_tracks s;
       playlist_index := playlist_index s |}).
  { unfold after. rewrite (add_to_queue_found db track_id t s H).
    destruct s as [q c e p lt lp m ts i]; player_cbn. subst c m lt q.
    reflexivity. }
  rewrite Hadd. unfold after. split; intros Hd.
  - rewrite (tick_counts _ t); [reflexivity .. | player_cbn; lia].
  - rewrite (tick_track_end _ t);
      [| reflexivity | reflexivity | player_cbn; lia | reflexivity].
    rewrite next_track_forgets_position.
    rewrite next_track_queue_empty; reflexivity.
Qed.

Lemma queue_add_turn_witness :
  send_status (after (iteration sample_db (Some (cmd_queue_add 2))) initial) =
  {| status := PLAYING; track := Some "B"; status_elapsed := 1;
     status_duration := Some 3; status_queue := [];
     status_loop_track := false; status_loop_playlist := false |}.
Proof.
  apply (proj1 (queue_add_turn sample_db 2 song_b initial
                  eq_refl eq_refl eq_refl eq_refl eq_refl)).
  reflexivity.
Defined.

Lemma session_cons (db : Database) (received : option command)
    (turns : list (option command)) (s : Player) :
  session db (received :: turns) s
  = session db turns (after (iteration db received) s).
Proof. reflexivity. Qed.

Lemma session_idle_turns (db : Database) (n : nat) (s : Player) (t : Track.t) :
  current s = Some t -> is_paused s = false ->
  elapsed s + Z.of_nat n < Track.duration t ->
  session db (replicate n None) s = with_elapsed (elapsed s + Z.of_nat n) s.
Proof.
  revert s. induction n as [|n IH]; intros s Hc Hp Hlt.
  - cbn [replicate session fold_left Z.of_nat]. rewrite Z.add_0_r.
    symmetry. apply with_elapsed_same.
  - cbn [replicate]. rewrite session_cons.
    replace (after (iteration db None) s) with (with_elapsed (elapsed s + 1) s)
      by (unfold after; rewrite (idle_iteration db s t Hc Hp) by lia;
          reflexivity).
    rewrite IH;
      [| destruct s; exact Hc | destruct s; exact Hp
       | destruct s; player_cbn; lia].
    destruct s as [q c e p lt lp m ts i]; player_cbn.
    replace (e + 1 + Z.of_nat n) with (e + Z.of_nat (S n)) by lia.
    reflexivity.
Qed.

(** X18: every turn of every connection's loop ticks the one shared player:
    while a track plays unpaused, [n] turns that receive no command,
    whichever connections take them, add [n] to [elapsed] as long as the
    track has that much time left, and change nothing else. *)
Theorem every_turn_ticks
    (db : Database) (n : nat) (s : Player) (t : Track.t) :
  current s = Some t -> is_paused s = false ->
  elapsed s + Z.of_nat n < Track.duration t ->
  session db (replicate n None) s = with_elapsed (elapsed s + Z.of_nat n) s.
Proof. apply session_idle_turns. Qed.

Lemma every_turn_ticks_witness :
  session sample_db [None; None] (with_current (Some song_b) playing_a)
  = with_elapsed 2 (with_current (Some song_b) playing_a).
Proof.
  apply (every_turn_ticks sample_db 2
           (with_current (Some song_b) playing_a) song_b);
    [reflexivity | reflexivity | vm_compute; reflexivity].
Defined.


(** ** Ticking and the number of connections *)

Lemma iteration_ticks_once (db : Database) (received : option command)
    (s : Player) :
  after (iteration db received) s =
  after tick
    (after (swallow (match received with
                     | Some c => dispatch db c
                     | None => ret tt
                     end)) s).
Proof.
  unfold iteration, after, bind, swallow.
  destruct (match received with
            | Some c => dispatch db c
            | None => ret tt
            end s) as [[[]|x] s']; cbn [snd];
    destruct (tick s') as [[r|x'] s'']; reflexivity.
Qed.

(** C6, as the code has it: [tick] is called once in every turn of every
    connection's loop, whatever the turn received, on the one shared player;
    there is no ticking of the process as a whole.  So in a loop period in
    which [connections] open connections take one turn each, a track playing
    unpaused advances by [connections] seconds (while it has that much time
    left), and by exactly one only when one client is connected. *)
Theorem connections_tick_per_turn (db : Database) (s : Player) :
  (forall received : option command,
     after (iteration db received) s =
     after tick
       (after (swallow (match received with
                        | Some c => dispatch db c
                        | None => ret tt
                        end)) s)) /\
  (forall (connections : nat) (t : Track.t),
     current s = Some t -> is_paused s = false ->
     elapsed s + Z.of_nat connections < Track.duration t ->
     session db (period connections) s
     = with_elapsed (elapsed s + Z.of_nat connections) s).
Proof.
  split.
  - intros received. apply iteration_ticks_once.
  - intros connections t. unfold period. apply session_idle_turns.
Qed.

Lemma connections_tick_per_turn_witness :
  session sample_db (period 2) (with_current (Some song_b) playing_a)
  = with_elapsed 2 (with_current (Some song_b) playing_a) /\
  session sample_db (period 1) (with_current (Some song_b) playing_a)
  = with_elapsed 1 (with_current (Some song_b) playing_a).
Proof.
  split.
  - apply (proj2 (connections_tick_per_turn sample_db
                    (with_current (Some song_b) playing_a)) 2%nat song_b);
      [reflexivity | reflexivity | vm_compute; reflexivity].
  - apply (proj2 (connections_tick_per_turn sample_db
                    (with_current (Some song_b) playing_a)) 1%nat song_b);
      [reflexivity | reflexivity | vm_compute; reflexivity].
Defined.

(** C6 as stated fails: with two clients connected, one loop period (one turn
    of each connection, the first of which queues [song_b]) takes the
    playback of [song_b] from nothing to [elapsed] 2, not 1. *)
Lemma two_connections_tick_twice :
  current (session sample_db [Some (cmd_queue_add 2); None] initial)
  = Some song_b /\
  elapsed (session sample_db [Some (cmd_queue_add 2); None] initial) = 2.
Proof. split; reflexivity. Qed.
